(** * github-actions-mcp: access control and resilience primitives

    A shallow embedding of [src/permissions.ts] (permission and repository
    access checks), [src/utils.ts] (deadline guard, circuit breaker, rate
    limit headers) and of the helper [parseRepo] of [src/index.ts], with the
    properties the specification states about them.

    Conventions of the embedding:
    - a JavaScript string is a [string]; [===] on strings is [String.eqb];
    - a value of type [string | undefined] is an [option string], with
      [None] for [undefined];
    - a function of type [void] that may [throw new Error(msg)] returns a
      [completion unit];
    - [Date.now()] is an explicit argument [now] of the operations that
      read the clock;
    - the counters and clock values of the breaker are [Z]; a number that
      [parseInt] produces, and the bound of [withTimeout], is a
      [JS.number], integral or [NaN];
    - the race of [withTimeout] takes, as an argument, which of the
      operation and the timer settles first. *)

From Stdlib Require Import ZArith Ascii String Bool Lia.
From stdpp Require Import base option list strings pretty gmap.

Local Open Scope Z_scope.

(** ** JavaScript values and primitives that the sources use *)

Module JS.

(** [new Error(message)]. Every failure of these sources is a plain
    [Error]: no subclass, [name] or [code] tells one from another, only
    the message does. *)
Record Error : Type := mkError { message : string }.

(** Normal or abrupt completion of a call. *)
Inductive completion (A : Type) : Type :=
| Return (a : A)
| Throw (e : Error).
Arguments Return {A} a.
Arguments Throw {A} e.

Definition bind {A B} (k : A -> completion B) (c : completion A)
  : completion B :=
  match c with
  | Return a => k a
  | Throw e => Throw e
  end.

Definition throws {A} (c : completion A) : bool :=
  match c with
  | Return _ => false
  | Throw _ => true
  end.

(** The double quote character, U+0022. *)
Definition dquote : string :=
  String (Ascii false true false false false true false false) EmptyString.

Definition slash : ascii := "/"%char.

(** [s.split("/")]: the segments between the separators, at least one. *)
Fixpoint split (s : string) : list string :=
  match s with
  | EmptyString => [EmptyString]
  | String c rest =>
      if Ascii.eqb c slash then EmptyString :: split rest
      else match split rest with
           | seg :: segs => String c seg :: segs
           | [] => [String c EmptyString]
           end
  end.

(** [a === b] on values of type [string | undefined]. *)
Definition strict_eq (a b : option string) : bool :=
  match a, b with
  | Some x, Some y => String.eqb x y
  | None, None => true
  | _, _ => false
  end.

(** Truthiness of a [string | undefined]: [undefined] and the empty
    string are falsy. *)
Definition truthy_string (v : option string) : bool :=
  match v with
  | Some (String _ _) => true
  | _ => false
  end.

(** Truthiness of a [boolean | undefined]. *)
Definition truthy_bool (v : option bool) : bool :=
  match v with
  | Some true => true
  | _ => false
  end.

(** A JavaScript number that holds an integral value or [NaN]. A
    JavaScript number is a double: [Num z] is a value of the program for
    the integers [z] up to 2^53 in magnitude, where every integer is a
    double, and the properties below that go through numbers are stated
    for that range. [Num 0] stands for both zeros. *)
Inductive number : Type :=
| NaN
| Num (z : Z).

(** White space skipped by [parseInt], among the ASCII characters: TAB,
    LF, VT, FF, CR and SP. The white space of JavaScript outside of ASCII
    (U+00A0, U+FEFF and others) is not followed: the properties below
    that depend on it are stated for ASCII strings. *)
Definition is_white (c : ascii) : bool :=
  let n := nat_of_ascii c in
  ((9 <=? n)%nat && (n <=? 13)%nat) || (n =? 32)%nat.

Fixpoint trim_start (s : string) : string :=
  match s with
  | EmptyString => EmptyString
  | String c rest => if is_white c then trim_start rest else s
  end.

Definition digit_value (c : ascii) : option Z :=
  let n := Z.of_nat (nat_of_ascii c) in
  if (48 <=? n) && (n <=? 57) then Some (n - 48) else None.

(** The longest prefix of decimal digits. *)
Fixpoint digits_prefix (s : string) : list Z :=
  match s with
  | EmptyString => []
  | String c rest =>
      match digit_value c with
      | Some d => d :: digits_prefix rest
      | None => []
      end
  end.

Definition mathInt (ds : list Z) : Z :=
  fold_left (fun acc d => 10 * acc + d) ds 0.

(** [parseInt(s, 10)]: leading white space, an optional sign, then the
    longest run of decimal digits; [NaN] when that run is empty. The
    result is the integer that the digits denote; JavaScript rounds it to
    a double, which is the same number up to 2^53 in magnitude. *)
Definition parseInt (s : string) : number :=
  let t := trim_start s in
  let '(sign, body) :=
    match t with
    | String c rest =>
        if Ascii.eqb c "-" then (-1, rest)
        else if Ascii.eqb c "+" then (1, rest)
        else (1, t)
    | EmptyString => (1, t)
    end in
  match digits_prefix body with
  | [] => NaN
  | ds => Num (sign * mathInt ds)
  end.

(** [x * k] for an integral constant [k]. *)
Definition times (x : number) (k : Z) : number :=
  match x with
  | NaN => NaN
  | Num z => Num (z * k)
  end.

(** [new Date(value)]: the time value in milliseconds since the epoch,
    clipped to [NaN] (an invalid date) outside of +-8.64e15. *)
Record Date : Type := mkDate { getTime : number }.

Definition new_Date (value : number) : Date :=
  match value with
  | NaN => mkDate NaN
  | Num z => if 8640000000000000 <? Z.abs z then mkDate NaN
             else mkDate (Num z)
  end.

(** [Math.ceil(x / 1000)] for an integral [x]. *)
Definition ceil_div_1000 (x : Z) : Z := - ((- x) / 1000).

End JS.

Export JS (Error, mkError, message, completion, Return, Throw).

(** Sequencing of calls: an exception raised by a statement skips the
    statements after it. *)
#[global] Instance completion_ret : MRet completion := @Return.
#[global] Instance completion_bind : MBind completion := @JS.bind.

(** ** Further JavaScript primitives *)

Module JSLib.

(** The line feed character, U+000A. *)
Definition newline : ascii :=
  Ascii false true false true false false false false.

(** [s.split(sep)] for a separator of one character. *)
Fixpoint split_on (sep : ascii) (s : string) : list string :=
  match s with
  | EmptyString => [EmptyString]
  | String c rest =>
      if Ascii.eqb c sep then EmptyString :: split_on sep rest
      else match split_on sep rest with
           | seg :: segs => String c seg :: segs
           | [] => [String c EmptyString]
           end
  end.

(** [l.join(sep)]. *)
Fixpoint join (sep : string) (l : list string) : string :=
  match l with
  | [] => EmptyString
  | [x] => x
  | x :: rest => x +:+ sep +:+ join sep rest
  end.

(** [l.slice(start)] for an integral [start]: a negative [start] counts
    from the end of the array. *)
Definition slice_from {A} (start : Z) (l : list A) : list A :=
  let len := Z.of_nat (length l) in
  let k := if start <? 0 then Z.max (len + start) 0 else Z.min start len in
  drop (Z.to_nat k) l.

(** [s.startsWith(p)]. *)
Fixpoint starts_with (p s : string) : bool :=
  match p, s with
  | EmptyString, _ => true
  | String _ _, EmptyString => false
  | String a p', String b s' => Ascii.eqb a b && starts_with p' s'
  end.

(** [s.includes(needle)]. *)
Fixpoint includes (needle s : string) : bool :=
  starts_with needle s
  || match s with
     | EmptyString => false
     | String _ rest => includes needle rest
     end.

(** [a - b] on numbers. *)
Definition minus (a b : JS.number) : JS.number :=
  match a, b with
  | JS.Num x, JS.Num y => JS.Num (x - y)
  | _, _ => JS.NaN
  end.

(** [Math.floor(a / k)] for a positive integral constant [k]. *)
Definition floor_div (a : JS.number) (k : Z) : JS.number :=
  match a with
  | JS.Num x => JS.Num (x / k)
  | JS.NaN => JS.NaN
  end.

(** [a % k]: the remainder takes the sign of [a]. *)
Definition rem (a : JS.number) (k : Z) : JS.number :=
  match a with
  | JS.Num x => JS.Num (Z.rem x k)
  | JS.NaN => JS.NaN
  end.

(** [a < k]; a comparison with [NaN] is false. *)
Definition lt (a : JS.number) (k : Z) : bool :=
  match a with
  | JS.Num x => x <? k
  | JS.NaN => false
  end.

(** [`${a}`]: the decimal digits of an integer, and [NaN]. The digits are
    those that JavaScript prints for the integers up to 2^53 in
    magnitude; beyond 2^53 it prints a rounded value, and an exponent from
    1e21 on, which this function does not follow. *)
Definition to_string (a : JS.number) : string :=
  match a with
  | JS.Num x => pretty x
  | JS.NaN => "NaN"
  end.

End JSLib.

(** ** [src/config.ts]: the configuration read by the checks *)

Module PermissionLevel.
(** [type PermissionLevel = "read" | "trigger" | "cancel" | "admin"]. *)
Inductive t : Type := read | trigger | cancel | admin.

Definition to_string (l : t) : string :=
  match l with
  | read => "read"
  | trigger => "trigger"
  | cancel => "cancel"
  | admin => "admin"
  end.
End PermissionLevel.

(** [Config.permissions]. *)
Record Permissions : Type := mkPermissions {
  read : bool;
  trigger : bool;
  cancel : bool;
  admin : bool;
  whitelist_repos : list string;
  blacklist_repos : list string
}.

(** The fields of [Config] that the checks read; [bypass_permissions] is
    optional in the source. *)
Record Config : Type := mkConfig {
  permissions : Permissions;
  bypass_permissions : option bool
}.

(** [DEFAULT_CONFIG.permissions]. *)
Definition DEFAULT_PERMISSIONS : Permissions :=
  {| read := true; trigger := false; cancel := false; admin := false;
     whitelist_repos := []; blacklist_repos := [] |}.

(** ** [src/permissions.ts] *)

Module Perm.

(** [config.permissions[level]]. *)
Definition flag (p : Permissions) (level : PermissionLevel.t) : bool :=
  match level with
  | PermissionLevel.read => read p
  | PermissionLevel.trigger => trigger p
  | PermissionLevel.cancel => cancel p
  | PermissionLevel.admin => admin p
  end.

Definition permissionDenied (level : PermissionLevel.t) : Error :=
  mkError ("Permission denied: " +:+ JS.dquote
           +:+ PermissionLevel.to_string level +:+ JS.dquote
           +:+ " access is not enabled. "
           +:+ "Enable it in config or use --bypass-permissions.").

Definition checkPermission (config : Config) (level : PermissionLevel.t)
  : completion unit :=
  if JS.truthy_bool (bypass_permissions config) then Return tt
  else if negb (flag (permissions config) level)
       then Throw (permissionDenied level)
       else Return tt.

(** The decision taken for one pattern inside the loop of [matchesAny],
    with [owner] and [repoName] the first two segments of [repo]. *)
Definition matchesPattern (repo : string) (owner repoName : option string)
    (pattern : string) : bool :=
  if String.eqb pattern repo then true
  else
    let patternOwner := JS.split pattern !! 0%nat in
    let patternRepo := JS.split pattern !! 1%nat in
    if JS.strict_eq patternRepo (Some "*")
       && JS.strict_eq patternOwner owner then true
    else if JS.strict_eq patternOwner (Some "*")
            && JS.strict_eq patternRepo repoName then true
    else false.

Fixpoint matchesAny_loop (repo : string) (owner repoName : option string)
    (patterns : list string) : bool :=
  match patterns with
  | [] => false
  | pattern :: rest =>
      if matchesPattern repo owner repoName pattern then true
      else matchesAny_loop repo owner repoName rest
  end.

Definition matchesAny (repo : string) (patterns : list string) : bool :=
  let owner := JS.split repo !! 0%nat in
  let repoName := JS.split repo !! 1%nat in
  matchesAny_loop repo owner repoName patterns.

(** The matcher for one pattern: [matchesAny] on a single candidate. *)
Definition matches (repo pattern : string) : bool :=
  matchesPattern repo (JS.split repo !! 0%nat) (JS.split repo !! 1%nat)
                 pattern.

Definition blacklisted (repo : string) : Error :=
  mkError ("Access denied: repository " +:+ JS.dquote +:+ repo
           +:+ JS.dquote +:+ " is blacklisted.").

Definition notInWhitelist (repo : string) : Error :=
  mkError ("Access denied: repository " +:+ JS.dquote +:+ repo
           +:+ JS.dquote +:+ " is not in the whitelist.").

Definition checkRepoAccess (config : Config) (repo : string)
  : completion unit :=
  if JS.truthy_bool (bypass_permissions config) then Return tt
  else
    let whitelist := whitelist_repos (permissions config) in
    let blacklist := blacklist_repos (permissions config) in
    if (0 <? length blacklist)%nat && matchesAny repo blacklist
    then Throw (blacklisted repo)
    else if (length whitelist =? 0)%nat then Return tt
    else if negb (matchesAny repo whitelist)
         then Throw (notInWhitelist repo)
         else Return tt.

End Perm.

(** ** [src/index.ts]: resource parsing and the prologue of the handlers *)

Module Index.

Definition invalidRepoFormat (repo : string) : Error :=
  mkError ("Invalid repo format: " +:+ JS.dquote +:+ repo +:+ JS.dquote
           +:+ ". Expected " +:+ JS.dquote +:+ "owner/repo" +:+ JS.dquote).

(** [parseRepo] returns the pair [{ owner, repo }]. *)
Definition parseRepo (repo : string) : completion (string * string) :=
  let owner := JS.split repo !! 0%nat in
  let repoName := JS.split repo !! 1%nat in
  if negb (JS.truthy_string owner) || negb (JS.truthy_string repoName)
  then Throw (invalidRepoFormat repo)
  else match owner, repoName with
       | Some o, Some n => Return (o, n)
       | _, _ => Throw (invalidRepoFormat repo)
       end.

(** The three statements that open every tool handler:
    [checkPermission(config, level); checkRepoAccess(config, repo);
     const { owner, repo: repoName } = parseRepo(repo);]. *)
Definition handlerPrologue (config : Config) (level : PermissionLevel.t)
    (repo : string) : completion (string * string) :=
  Perm.checkPermission config level ;;
  Perm.checkRepoAccess config repo ;;
  parseRepo repo.

End Index.

(** ** [src/utils.ts] *)

Module Utils.

(** *** [withTimeout] *)

(** How a promise settles. *)
Inductive settlement (T : Type) : Type :=
| Fulfilled (v : T)
| Rejected (e : Error).
Arguments Fulfilled {T} v.
Arguments Rejected {T} e.

(** Which of the two inputs of [Promise.race([promise, timeout])] settles
    first: the wrapped promise, with its settlement, or the timer that
    [setTimeout] armed for [ms] milliseconds. *)
Inductive first_settled (T : Type) : Type :=
| PromiseFirst (s : settlement T)
| TimerFirst.
Arguments PromiseFirst {T} s.
Arguments TimerFirst {T}.

(** [message || `Operation timed out after ${ms}ms`]. *)
Definition timeoutMessage (ms : JS.number) (message : option string)
  : string :=
  match message with
  | Some (String c rest) => String c rest
  | _ => "Operation timed out after " +:+ JSLib.to_string ms +:+ "ms"
  end.

Definition withTimeout {T} (promise : first_settled T) (ms : JS.number)
    (message : option string) : settlement T :=
  match promise with
  | PromiseFirst s => s
  | TimerFirst => Rejected (mkError (timeoutMessage ms message))
  end.

(** *** [CircuitBreaker] *)

(** The fields of the class; [threshold], [resetTimeMs] and [cooldownMs]
    are [readonly].  The [console.error] diagnostics of [check] and
    [failure] touch none of the fields and are left out. *)
Record CircuitBreaker : Type := mkCircuitBreaker {
  failures : Z;
  lastFailure : Z;
  isOpen : bool;
  threshold : Z;
  resetTimeMs : Z;
  cooldownMs : Z
}.

(** [new CircuitBreaker(threshold = 3, resetTimeMs = 60000,
    cooldownMs = 300000)]. *)
Definition new_CircuitBreaker (threshold resetTimeMs cooldownMs : option Z)
  : CircuitBreaker :=
  {| failures := 0; lastFailure := 0; isOpen := false;
     threshold := default 3 threshold;
     resetTimeMs := default 60000 resetTimeMs;
     cooldownMs := default 300000 cooldownMs |}.

Definition set_failures (n : Z) (b : CircuitBreaker) : CircuitBreaker :=
  {| failures := n; lastFailure := lastFailure b; isOpen := isOpen b;
     threshold := threshold b; resetTimeMs := resetTimeMs b;
     cooldownMs := cooldownMs b |}.

Definition set_lastFailure (t : Z) (b : CircuitBreaker) : CircuitBreaker :=
  {| failures := failures b; lastFailure := t; isOpen := isOpen b;
     threshold := threshold b; resetTimeMs := resetTimeMs b;
     cooldownMs := cooldownMs b |}.

Definition set_isOpen (o : bool) (b : CircuitBreaker) : CircuitBreaker :=
  {| failures := failures b; lastFailure := lastFailure b; isOpen := o;
     threshold := threshold b; resetTimeMs := resetTimeMs b;
     cooldownMs := cooldownMs b |}.

Definition circuitOpen (b : CircuitBreaker) (now : Z) : Error :=
  mkError ("Circuit breaker open: too many failures. Retry after "
           +:+ pretty (JS.ceil_div_1000
                         (cooldownMs b - (now - lastFailure b)))
           +:+ "s").

(** [check()], with [now] the value of [Date.now()]: the completion of
    the call and the breaker after it. *)
Definition check (now : Z) (b : CircuitBreaker)
  : completion unit * CircuitBreaker :=
  if negb (isOpen b) then (Return tt, b)
  else if cooldownMs b <? now - lastFailure b
       then (Return tt, set_failures 0 (set_isOpen false b))
       else (Throw (circuitOpen b now), b).

(** [success()]. *)
Definition success (b : CircuitBreaker) : CircuitBreaker :=
  if 0 <? failures b then set_failures (failures b - 1) b else b.

(** [failure()], with [now] the value of [Date.now()]. *)
Definition failure (now : Z) (b : CircuitBreaker) : CircuitBreaker :=
  let b1 :=
    if resetTimeMs b <? now - lastFailure b then set_failures 0 b else b in
  let b2 := set_failures (failures b1 + 1) b1 in
  let b3 := set_lastFailure now b2 in
  if threshold b3 <=? failures b3 then set_isOpen true b3 else b3.

(** One call on a breaker, with the clock value it reads. *)
Inductive call : Type :=
| Check (now : Z)
| Success
| Failure (now : Z).

Definition step (c : call) (b : CircuitBreaker) : CircuitBreaker :=
  match c with
  | Check now => snd (check now b)
  | Success => success b
  | Failure now => failure now b
  end.

(** The breaker after a sequence of calls, first call first. *)
Definition run (cs : list call) (b : CircuitBreaker) : CircuitBreaker :=
  fold_left (fun acc c => step c acc) cs b.

(** The states an instance can be in: those a sequence of calls leads to
    from the freshly constructed breaker. *)
Inductive reachable (b0 : CircuitBreaker) : CircuitBreaker -> Prop :=
| reachable_init : reachable b0 b0
| reachable_step b c : reachable b0 b -> reachable b0 (step c b).

(** *** [parseRateLimitHeaders] *)

Record RateLimitInfo : Type := mkRateLimitInfo {
  remaining : JS.number;
  limit : JS.number;
  reset_at : JS.Date
}.

(** [headers] maps a header name to its value; a name bound to
    [undefined] reads like a missing one. [None] is [null]. *)
Definition parseRateLimitHeaders (headers : gmap string string)
  : option RateLimitInfo :=
  let remaining := headers !! "x-ratelimit-remaining" in
  let limit := headers !! "x-ratelimit-limit" in
  let reset := headers !! "x-ratelimit-reset" in
  if negb (JS.truthy_string remaining) || negb (JS.truthy_string limit)
     || negb (JS.truthy_string reset)
  then None
  else
    match remaining, limit, reset with
    | Some r, Some l, Some t =>
        Some {| remaining := JS.parseInt r;
                limit := JS.parseInt l;
                reset_at := JS.new_Date (JS.times (JS.parseInt t) 1000) |}
    | _, _, _ => None
    end.

End Utils.

(** ** [src/config.ts]: loading the configuration *)

Module ConfigTs.

(** [Config.neverhang]. The environment can replace [api_timeout] by the
    result of a [parseInt]. *)
Record Neverhang : Type := mkNeverhang {
  api_timeout : JS.number;
  log_timeout : Z
}.

(** [Config.fallback]. *)
Record Fallback : Type := mkFallback {
  enabled : bool;
  model : option string;
  api_key_env : option string;
  max_log_lines : option Z;
  max_tokens : option Z
}.

(** [interface Config], with all its sections. *)
Record FullConfig : Type := mkFullConfig {
  token_env : string;
  full_permissions : Permissions;
  neverhang : Neverhang;
  fallback : Fallback;
  full_bypass_permissions : option bool
}.

(** The part of the configuration that the access checks read. *)
Definition checks (c : FullConfig) : Config :=
  {| permissions := full_permissions c;
     bypass_permissions := full_bypass_permissions c |}.

(** The sections of a configuration file: every section and every key of
    a section may be missing. *)
Record FilePermissions : Type := mkFilePermissions {
  f_read : option bool;
  f_trigger : option bool;
  f_cancel : option bool;
  f_admin : option bool;
  f_whitelist_repos : option (list string);
  f_blacklist_repos : option (list string)
}.

Record FileNeverhang : Type := mkFileNeverhang {
  f_api_timeout : option Z;
  f_log_timeout : option Z
}.

Record FileFallback : Type := mkFileFallback {
  f_enabled : option bool;
  f_model : option string;
  f_api_key_env : option string;
  f_max_log_lines : option Z;
  f_max_tokens : option Z
}.

Record FileAuth : Type := mkFileAuth {
  f_token_env : option string
}.

(** [Partial<Config>], the value of [JSON.parse(content)]. *)
Record FileConfig : Type := mkFileConfig {
  f_auth : option FileAuth;
  f_permissions : option FilePermissions;
  f_neverhang : option FileNeverhang;
  f_fallback : option FileFallback;
  f_bypass_permissions : option bool
}.

(** [let fileConfig = {}]. *)
Definition emptyFileConfig : FileConfig :=
  {| f_auth := None; f_permissions := None; f_neverhang := None;
     f_fallback := None; f_bypass_permissions := None |}.

(** What the loader finds at one of [configPaths]: no file, a file that
    cannot be read or parsed, or a parsed file. *)
Inductive candidate : Type :=
| Missing
| Unparsable
| Parsed (fc : FileConfig).

(** The loop over [configPaths]: the first file that exists and parses is
    taken; a file that fails to parse is skipped with a warning. *)
Fixpoint readFileConfig (candidates : list candidate) : FileConfig :=
  match candidates with
  | [] => emptyFileConfig
  | Missing :: rest => readFileConfig rest
  | Unparsable :: rest => readFileConfig rest
  | Parsed fc :: _ => fc
  end.

(** The value of key [get] in a section that may be missing, or the
    default. *)
Definition key {S A} (section : option S) (get : S -> option A) (d : A)
  : A :=
  match section with
  | Some sec => default d (get sec)
  | None => d
  end.

(** An optional key without default. *)
Definition okey {S A} (section : option S) (get : S -> option A)
  : option A :=
  match section with
  | Some sec => get sec
  | None => None
  end.

(** [{ ...DEFAULT_CONFIG.permissions, ...fileConfig.permissions }]. *)
Definition mergePermissions (fp : option FilePermissions) : Permissions :=
  {| read := key fp f_read (read DEFAULT_PERMISSIONS);
     trigger := key fp f_trigger (trigger DEFAULT_PERMISSIONS);
     cancel := key fp f_cancel (cancel DEFAULT_PERMISSIONS);
     admin := key fp f_admin (admin DEFAULT_PERMISSIONS);
     whitelist_repos :=
       key fp f_whitelist_repos (whitelist_repos DEFAULT_PERMISSIONS);
     blacklist_repos :=
       key fp f_blacklist_repos (blacklist_repos DEFAULT_PERMISSIONS) |}.

(** [loadConfig()], given the command line, what is found at the two
    configuration paths, and the environment. *)
Definition loadConfig (argv : list string) (candidates : list candidate)
    (env : gmap string string) : FullConfig :=
  let bypassMode := bool_decide ("--bypass-permissions" ∈ argv) in
  let fileConfig := readFileConfig candidates in
  let merged_api_timeout :=
    JS.Num (key (f_neverhang fileConfig) f_api_timeout 30000) in
  {| token_env := key (f_auth fileConfig) f_token_env "GITHUB_TOKEN";
     full_permissions := mergePermissions (f_permissions fileConfig);
     neverhang :=
       {| api_timeout :=
            match env !! "GHA_MCP_TIMEOUT" with
            | Some (String c rest) => JS.parseInt (String c rest)
            | _ => merged_api_timeout
            end;
          log_timeout := key (f_neverhang fileConfig) f_log_timeout 60000 |};
     fallback :=
       {| enabled := key (f_fallback fileConfig) f_enabled false;
          model := okey (f_fallback fileConfig) f_model;
          api_key_env := okey (f_fallback fileConfig) f_api_key_env;
          max_log_lines := okey (f_fallback fileConfig) f_max_log_lines;
          max_tokens := okey (f_fallback fileConfig) f_max_tokens |};
     full_bypass_permissions :=
       if bypassMode then Some true
       else f_bypass_permissions fileConfig |}.

End ConfigTs.

(** ** [src/haiku.ts] *)

Module Haiku.

(** [isHaikuEnabled(config)], with [env] for [process.env]. *)
Definition isHaikuEnabled (config : ConfigTs.FullConfig)
    (env : gmap string string) : bool :=
  if negb (ConfigTs.enabled (ConfigTs.fallback config)) then false
  else
    let apiKey :=
      match ConfigTs.api_key_env (ConfigTs.fallback config) with
      | Some (String c rest) => env !! String c rest
      | _ => env !! "ANTHROPIC_API_KEY"
      end in
    JS.truthy_string apiKey.

(** [truncateLogs(logs, maxLines)]. *)
Definition truncateLogs (logs : string) (maxLines : Z) : string :=
  let lines := JSLib.split_on JSLib.newline logs in
  if Z.of_nat (length lines) <=? maxLines then logs
  else JSLib.join (String JSLib.newline EmptyString)
                  (JSLib.slice_from (- maxLines) lines).

(** [config.fallback.max_log_lines || 200], the bound that
    [diagnoseWithHaiku] hands to the prompt. *)
Definition logLineBudget (config : ConfigTs.FullConfig) : Z :=
  match ConfigTs.max_log_lines (ConfigTs.fallback config) with
  | Some n => if n =? 0 then 200 else n
  | None => 200
  end.

End Haiku.

(** ** [src/index.ts]: helpers and the pure parts of the handlers *)

Module Handlers.

(** [formatDuration(startedAt, completedAt)]. [parse s] stands for
    [new Date(s).getTime()], a time in milliseconds or [NaN], and [now]
    for [Date.now()]. *)
Definition formatDuration (parse : string -> JS.number) (now : Z)
    (startedAt : string) (completedAt : option string) : string :=
  let start := parse startedAt in
  let end_ :=
    match completedAt with
    | Some (String c rest) => parse (String c rest)
    | _ => JS.Num now
    end in
  let seconds := JSLib.floor_div (JSLib.minus end_ start) 1000 in
  if JSLib.lt seconds 60 then JSLib.to_string seconds +:+ "s"
  else if JSLib.lt seconds 3600
  then JSLib.to_string (JSLib.floor_div seconds 60) +:+ "m "
       +:+ JSLib.to_string (JSLib.rem seconds 60) +:+ "s"
  else JSLib.to_string (JSLib.floor_div seconds 3600) +:+ "h "
       +:+ JSLib.to_string (JSLib.floor_div (JSLib.rem seconds 3600) 60)
       +:+ "m".

(** The steps and jobs of a run, as [listJobsForWorkflowRun] returns
    them: the fields that [gha_diagnose_failure] reads. *)
Record Step : Type := mkStep {
  step_name : string;
  step_conclusion : option string
}.

Record Job : Type := mkJob {
  job_name : string;
  job_conclusion : option string;
  job_steps : option (list Step)
}.

Record FailedStep : Type := mkFailedStep {
  job : string;
  step : string;
  conclusion : string
}.

Definition is_failure (c : option string) : bool :=
  JS.strict_eq c (Some "failure").

(** [jobs.filter((j) => j.conclusion === "failure")]. *)
Definition failedJobs (jobs : list Job) : list Job :=
  List.filter (fun j => is_failure (job_conclusion j)) jobs.

(** The body of the loop over [failedJobs]: the entries pushed for one
    job. *)
Definition failedStepsOf (j : Job) : list FailedStep :=
  let failed :=
    match job_steps j with
    | Some steps =>
        List.filter (fun s => is_failure (step_conclusion s)) steps
    | None => []
    end in
  List.map
    (fun s =>
       {| job := job_name j;
          step := step_name s;
          conclusion :=
            match step_conclusion s with
            | Some (String c rest) => String c rest
            | _ => "failure"
            end |})
    failed.

(** The array [failedSteps] after the two loops. *)
Definition failedSteps (jobs : list Job) : list FailedStep :=
  List.flat_map failedStepsOf (failedJobs jobs).

(** What [gha_get_run_logs] answers: the link to the logs, with the
    response of the download request, or the text for expired logs. *)
Inductive logs_answer (R : Type) : Type :=
| LogsLink (response : R)
| LogsExpired.
Arguments LogsLink {R} response.
Arguments LogsExpired {R}.

(** The [try]/[catch] of [gha_get_run_logs] around the awaited download:
    an error whose message holds [410] is turned into the answer for
    expired logs, any other error is thrown again. *)
Definition catchExpired {R} (download : Utils.settlement R)
  : Utils.settlement (logs_answer R) :=
  match download with
  | Utils.Fulfilled r => Utils.Fulfilled (LogsLink r)
  | Utils.Rejected e =>
      if JSLib.includes "410" (message e)
      then Utils.Fulfilled LogsExpired
      else Utils.Rejected e
  end.

(** [gha_get_run_logs]: the prologue, then the download under
    [withTimeout] with the bound [log_timeout], inside the [try]. [race]
    tells, from the owner and the name that go to the request, which of
    the download and the timer settles first. *)
Definition gha_get_run_logs {R} (config : ConfigTs.FullConfig)
    (repo : string) (race : string * string -> Utils.first_settled R)
  : Utils.settlement (logs_answer R) :=
  match Index.handlerPrologue (ConfigTs.checks config)
                              PermissionLevel.read repo with
  | Throw e => Utils.Rejected e
  | Return target =>
      catchExpired
        (Utils.withTimeout (race target)
           (JS.Num (ConfigTs.log_timeout (ConfigTs.neverhang config))) None)
  end.

End Handlers.

(** ** Vocabulary of the properties *)

(** Some pattern of the list matches the resource. *)
Definition matched (repo : string) (patterns : list string) : Prop :=
  exists p, p ∈ patterns /\ Perm.matches repo p = true.

(** A whitelist wildcard with a blacklisted repository inside it. *)
Definition carved_config : Config :=
  {| permissions :=
       {| read := true; trigger := false; cancel := false; admin := true;
          whitelist_repos := ["acme/*"];
          blacklist_repos := ["acme/secrets"] |};
     bypass_permissions := None |}.

(** The configuration out of the box: every repository open, no bypass. *)
Definition open_config : Config :=
  {| permissions := DEFAULT_PERMISSIONS; bypass_permissions := None |}.

(** A configuration restricted to the repositories of one owner. *)
Definition acme_config : Config :=
  {| permissions :=
       {| read := true; trigger := false; cancel := false; admin := false;
          whitelist_repos := ["acme/*"]; blacklist_repos := [] |};
     bypass_permissions := None |}.

(** A breaker built with the default arguments: threshold 3, reset window
    60000 ms, cooldown 300000 ms. *)
Definition fresh_breaker : Utils.CircuitBreaker :=
  Utils.new_CircuitBreaker None None None.

(** The breaker after three failures at 1000 ms: open. *)
Definition tripped_breaker : Utils.CircuitBreaker :=
  Utils.run [Utils.Failure 1000; Utils.Failure 1000; Utils.Failure 1000]
            fresh_breaker.

(** A response with the three quota headers. *)
Definition quota_headers (remaining limit reset : string)
  : gmap string string :=
  <["x-ratelimit-remaining" := remaining]>
    (<["x-ratelimit-limit" := limit]>
       (<["x-ratelimit-reset" := reset]> ∅)).

(** A header that [headers[name]] reads as [undefined] or as the empty
    string. *)
Definition absent_or_empty (v : option string) : Prop :=
  v = None \/ v = Some "".

(** The resource holds a separator. *)
Fixpoint has_slash (s : string) : bool :=
  match s with
  | EmptyString => false
  | String c rest => Ascii.eqb c JS.slash || has_slash rest
  end.

(** Every character of the string is an ASCII character. *)
Fixpoint all_ascii (s : string) : Prop :=
  match s with
  | EmptyString => True
  | String c rest => (nat_of_ascii c < 128)%nat /\ all_ascii rest
  end.

(** Every character of the string is ASCII white space. *)
Fixpoint all_white (s : string) : Prop :=
  match s with
  | EmptyString => True
  | String c rest => JS.is_white c = true /\ all_white rest
  end.

(** The number is [NaN] or an integer up to 2^53 in magnitude: a number
    that JavaScript holds and prints without rounding. *)
Definition exact_number (n : JS.number) : Prop :=
  match n with
  | JS.NaN => True
  | JS.Num z => Z.abs z <= 9007199254740992
  end.

(** The strings on which [JS.parseInt] is the [parseInt] of JavaScript:
    ASCII strings whose number is held without rounding. *)
Definition within_parseInt_model (s : string) : Prop :=
  all_ascii s /\ exact_number (JS.parseInt s).

(** The number of separators of a resource. *)
Fixpoint count_slash (s : string) : nat :=
  match s with
  | EmptyString => 0%nat
  | String c rest =>
      if Ascii.eqb c JS.slash then S (count_slash rest) else count_slash rest
  end.

(** The string holds the character [c]. *)
Fixpoint has_char (c : ascii) (s : string) : bool :=
  match s with
  | EmptyString => false
  | String a rest => Ascii.eqb a c || has_char c rest
  end.

(** The string is empty or starts with something else than a digit. *)
Definition head_not_digit (s : string) : Prop :=
  match s with
  | EmptyString => True
  | String c _ => JS.digit_value c = None
  end.

(** Every time of the list is at most [window] after the one before. *)
Fixpoint gaps_within (window : Z) (last : Z) (ts : list Z) : Prop :=
  match ts with
  | [] => True
  | t :: rest => t - last <= window /\ gaps_within window t rest
  end.

(** A configuration with the given lists and flags, without bypass. *)
Definition listed_config (flags : Permissions) (wl bl : list string)
  : Config :=
  {| permissions :=
       {| read := read flags; trigger := trigger flags;
          cancel := cancel flags; admin := admin flags;
          whitelist_repos := wl; blacklist_repos := bl |};
     bypass_permissions := None |}.

(** A configuration file that holds a whitelist and nothing else. *)
Definition whitelist_only_file : ConfigTs.FileConfig :=
  {| ConfigTs.f_auth := None;
     ConfigTs.f_permissions :=
       Some {| ConfigTs.f_read := None; ConfigTs.f_trigger := None;
               ConfigTs.f_cancel := None; ConfigTs.f_admin := None;
               ConfigTs.f_whitelist_repos := Some ["acme/*"];
               ConfigTs.f_blacklist_repos := None |};
     ConfigTs.f_neverhang := None;
     ConfigTs.f_fallback := None;
     ConfigTs.f_bypass_permissions := None |}.

(** A run with one failed job of two steps and one job that passed
    although a step of it failed. *)
Definition sample_jobs : list Handlers.Job :=
  [ {| Handlers.job_name := "build";
       Handlers.job_conclusion := Some "failure";
       Handlers.job_steps :=
         Some [ {| Handlers.step_name := "checkout";
                   Handlers.step_conclusion := Some "success" |};
                {| Handlers.step_name := "compile";
                   Handlers.step_conclusion := Some "failure" |} ] |};
    {| Handlers.job_name := "lint";
       Handlers.job_conclusion := Some "success";
       Handlers.job_steps :=
         Some [ {| Handlers.step_name := "eslint";
                   Handlers.step_conclusion := Some "failure" |} ] |} ].



(** Nothing usable was found at the path. *)
Definition unparsed (c : ConfigTs.candidate) : Prop :=
  match c with
  | ConfigTs.Parsed _ => False
  | _ => True
  end.

(** What a configuration file says about a permission level. *)
Definition file_flag (fc : ConfigTs.FileConfig) (level : PermissionLevel.t)
  : option bool :=
  ConfigTs.okey (ConfigTs.f_permissions fc)
    match level with
    | PermissionLevel.read => ConfigTs.f_read
    | PermissionLevel.trigger => ConfigTs.f_trigger
    | PermissionLevel.cancel => ConfigTs.f_cancel
    | PermissionLevel.admin => ConfigTs.f_admin
    end.

(** A date parser for the examples: it reads a count of milliseconds. *)
Definition millis_parser (s : string) : JS.number := JS.parseInt s.

(** A configuration with the AI fallback on and its key under a name of
    its own. *)
Definition keyed_fallback_config : ConfigTs.FullConfig :=
  {| ConfigTs.token_env := "GITHUB_TOKEN";
     ConfigTs.full_permissions := DEFAULT_PERMISSIONS;
     ConfigTs.neverhang :=
       {| ConfigTs.api_timeout := JS.Num 30000;
          ConfigTs.log_timeout := 60000 |};
     ConfigTs.fallback :=
       {| ConfigTs.enabled := true; ConfigTs.model := None;
          ConfigTs.api_key_env := Some "MY_KEY";
          ConfigTs.max_log_lines := None; ConfigTs.max_tokens := None |};
     ConfigTs.full_bypass_permissions := None |}.

(** The defaults with a log timeout of 41000 ms. *)
Definition slow_logs_config : ConfigTs.FullConfig :=
  {| ConfigTs.token_env := "GITHUB_TOKEN";
     ConfigTs.full_permissions := DEFAULT_PERMISSIONS;
     ConfigTs.neverhang :=
       {| ConfigTs.api_timeout := JS.Num 30000;
          ConfigTs.log_timeout := 41000 |};
     ConfigTs.fallback :=
       {| ConfigTs.enabled := false; ConfigTs.model := None;
          ConfigTs.api_key_env := None;
          ConfigTs.max_log_lines := None; ConfigTs.max_tokens := None |};
     ConfigTs.full_bypass_permissions := None |}.

(** * Properties *)

(** ** Helper facts on the JavaScript primitives *)

Section Primitives.

Lemma strict_eq_true (a b : option string) :
  JS.strict_eq a b = true <-> a = b.
Proof.
  destruct a as [x|], b as [y|]; simpl; try (split; congruence).
  rewrite String.eqb_eq. split; congruence.
Qed.

Lemma truthy_bool_true (v : option bool) :
  JS.truthy_bool v = true <-> v = Some true.
Proof. destruct v as [[|]|]; simpl; split; congruence. Qed.

Lemma split_nonempty (s : string) : JS.split s <> [].
Proof.
  induction s as [|c s IH]; simpl; [discriminate|].
  destruct (Ascii.eqb c JS.slash); [discriminate|].
  destruct (JS.split s); discriminate.
Qed.

(** A string without separator is its own single segment. *)
Lemma split_no_slash (s : string) :
  has_slash s = false -> JS.split s = [s].
Proof.
  induction s as [|c s IH]; simpl; [reflexivity|].
  intros H. apply orb_false_iff in H as [Hc Hs].
  rewrite Hc, (IH Hs). reflexivity.
Qed.

(** Splitting [a/b] when [a] holds no separator. *)
Lemma split_app_slash (a b : string) :
  has_slash a = false ->
  JS.split (a +:+ String JS.slash b) = a :: JS.split b.
Proof.
  induction a as [|c a IH]; simpl; intros H.
  - reflexivity.
  - apply orb_false_iff in H as [Hc Ha].
    rewrite Hc, (IH Ha). reflexivity.
Qed.

(** No segment holds a separator. *)
Lemma split_segments_no_slash (s seg : string) :
  seg ∈ JS.split s -> has_slash seg = false.
Proof.
  revert seg. induction s as [|c s IH]; simpl; intros seg Hin.
  - apply list_elem_of_singleton in Hin. subst. reflexivity.
  - destruct (Ascii.eqb c JS.slash) eqn:Hc.
    + apply elem_of_cons in Hin as [->|Hin]; [reflexivity|auto].
    + destruct (JS.split s) as [|hd tl] eqn:Hs.
      * apply list_elem_of_singleton in Hin. subst. simpl.
        rewrite Hc. reflexivity.
      * apply elem_of_cons in Hin as [->|Hin].
        -- simpl. rewrite Hc. simpl. apply IH. left.
        -- apply IH. right. exact Hin.
Qed.

End Primitives.

(** ** Pattern matcher and access control *)

Section AccessControl.

Lemma matchesPattern_true repo owner repoName pattern :
  Perm.matchesPattern repo owner repoName pattern = true <->
  pattern = repo
  \/ (JS.split pattern !! 1%nat = Some "*"
      /\ JS.split pattern !! 0%nat = owner)
  \/ (JS.split pattern !! 0%nat = Some "*"
      /\ JS.split pattern !! 1%nat = repoName).
Proof.
  unfold Perm.matchesPattern.
  destruct (String.eqb pattern repo) eqn:He.
  - apply String.eqb_eq in He. tauto.
  - apply String.eqb_neq in He.
    destruct (JS.strict_eq (JS.split pattern !! 1%nat) (Some "*")
              && JS.strict_eq (JS.split pattern !! 0%nat) owner) eqn:H1.
    + apply andb_true_iff in H1 as [Ha Hb].
      apply strict_eq_true in Ha, Hb. tauto.
    + destruct (JS.strict_eq (JS.split pattern !! 0%nat) (Some "*")
                && JS.strict_eq (JS.split pattern !! 1%nat) repoName)
        eqn:H2.
      * apply andb_true_iff in H2 as [Ha Hb].
        apply strict_eq_true in Ha, Hb. tauto.
      * split; [discriminate|].
        intros [Heq|[[Ha Hb]|[Ha Hb]]]; [contradiction| |].
        -- apply strict_eq_true in Ha, Hb.
           rewrite Ha, Hb in H1. discriminate.
        -- apply strict_eq_true in Ha, Hb.
           rewrite Ha, Hb in H2. discriminate.
Qed.

Lemma matchesAny_loop_true repo owner repoName patterns :
  Perm.matchesAny_loop repo owner repoName patterns = true <->
  exists p, p ∈ patterns
            /\ Perm.matchesPattern repo owner repoName p = true.
Proof.
  induction patterns as [|q qs IH]; simpl.
  - split; [discriminate|]. intros (p & Hin & _).
    inversion Hin.
  - destruct (Perm.matchesPattern repo owner repoName q) eqn:Hq.
    + split; [|reflexivity]. intros _. exists q. split; [left|exact Hq].
    + rewrite IH. split.
      * intros (p & Hin & Hp). exists p. split; [right; exact Hin|exact Hp].
      * intros (p & Hin & Hp). apply elem_of_cons in Hin as [->|Hin].
        -- congruence.
        -- exists p. split; assumption.
Qed.

Lemma matchesAny_true repo patterns :
  Perm.matchesAny repo patterns = true <->
  exists p, p ∈ patterns /\ Perm.matches repo p = true.
Proof. unfold Perm.matchesAny, Perm.matches. apply matchesAny_loop_true. Qed.

(** C3. For a resource with an owner and a name segment, a pattern
    matches exactly when it equals the resource, or its second segment is
    [*] and its first segment is the owner, or its first segment is [*]
    and its second segment is the name; the comparison is equality of
    strings, so it is case-sensitive and knows no partial match.
    [matchesAny] holds iff some pattern of the list matches, and is false
    on the empty list. *)
Theorem matcher_characterisation (repo owner name pattern : string)
    (patterns : list string) :
  JS.split repo !! 0%nat = Some owner ->
  JS.split repo !! 1%nat = Some name ->
  (Perm.matches repo pattern = true <->
     pattern = repo
     \/ (JS.split pattern !! 1%nat = Some "*"
         /\ JS.split pattern !! 0%nat = Some owner)
     \/ (JS.split pattern !! 0%nat = Some "*"
         /\ JS.split pattern !! 1%nat = Some name))
  /\ (Perm.matchesAny repo patterns = true <->
        exists p, p ∈ patterns /\ Perm.matches repo p = true)
  /\ Perm.matchesAny repo [] = false
  /\ Perm.matches "acme/web" "acme/*" = true
  /\ Perm.matches "acme/web" "*/web" = true
  /\ Perm.matches "acme/web" "other/*" = false
  /\ Perm.matches "acme/web" "*/other" = false
  /\ Perm.matches "acme/web" "Acme/*" = false
  /\ Perm.matches "acme/web" "*/WEB" = false
  /\ Perm.matches "acme/web" "acme/we" = false.
Proof.
  intros Ho Hn. split; [|split; [apply matchesAny_true|]].
  - unfold Perm.matches. rewrite matchesPattern_true, Ho, Hn. reflexivity.
  - repeat split; reflexivity.
Qed.

Lemma matcher_characterisation_witness :
  JS.split "acme/web" !! 0%nat = Some "acme"
  /\ JS.split "acme/web" !! 1%nat = Some "web"
  /\ (Perm.matchesAny "acme/web" ["other/*"; "*/web"] = true <->
        exists p, p ∈ ["other/*"; "*/web"]
                  /\ Perm.matches "acme/web" p = true).
Proof.
  split; [reflexivity|]. split; [reflexivity|].
  exact (proj1 (proj2 (matcher_characterisation
                         "acme/web" "acme" "web" "acme/*"
                         ["other/*"; "*/web"] eq_refl eq_refl))).
Defined.

(** C1. [checkRepoAccess] decides in this order: bypass allows; else a
    matching blacklist pattern denies as blacklisted, whatever the
    whitelist holds; else an empty whitelist allows; else the resource is
    allowed iff a whitelist pattern matches, and denied as not in the
    whitelist otherwise. *)
Theorem checkRepoAccess_precedence (config : Config) (repo : string) :
  let wl := whitelist_repos (permissions config) in
  let bl := blacklist_repos (permissions config) in
  (bypass_permissions config = Some true ->
     Perm.checkRepoAccess config repo = Return tt)
  /\ (bypass_permissions config <> Some true ->
      (bl <> [] /\ matched repo bl ->
         Perm.checkRepoAccess config repo = Throw (Perm.blacklisted repo))
      /\ (~ matched repo bl -> wl = [] ->
            Perm.checkRepoAccess config repo = Return tt)
      /\ (~ matched repo bl -> wl <> [] ->
            (Perm.checkRepoAccess config repo = Return tt
             <-> matched repo wl)
            /\ (~ matched repo wl ->
                  Perm.checkRepoAccess config repo
                  = Throw (Perm.notInWhitelist repo)))).
Proof.
  intros wl bl. unfold Perm.checkRepoAccess. fold wl bl. split.
  - intros Hb. apply truthy_bool_true in Hb. rewrite Hb. reflexivity.
  - intros Hb.
    destruct (JS.truthy_bool (bypass_permissions config)) eqn:Hby;
      [apply truthy_bool_true in Hby; contradiction|].
    pose proof (matchesAny_true repo bl) as Hbl.
    pose proof (matchesAny_true repo wl) as Hwl.
    fold (matched repo bl) in Hbl. fold (matched repo wl) in Hwl.
    split; [|split].
    + intros [Hne Hm]. apply Hbl in Hm. rewrite Hm.
      destruct bl; [contradiction|reflexivity].
    + intros Hm ->.
      destruct (Perm.matchesAny repo bl); [destruct Hm; tauto|].
      rewrite andb_false_r. reflexivity.
    + intros Hm Hne.
      destruct (Perm.matchesAny repo bl); [destruct Hm; tauto|].
      rewrite andb_false_r.
      destruct wl as [|w wl']; [contradiction|]. simpl length.
      change (S (length wl') =? 0)%nat with false.
      destruct (Perm.matchesAny repo (w :: wl')); simpl.
      * split; [tauto|]. intros Hn. destruct Hn. tauto.
      * split; [split; [discriminate|]|reflexivity].
        intros H. apply Hwl in H. discriminate.
Qed.

Lemma checkRepoAccess_precedence_witness :
  Perm.matches "acme/secrets" "acme/*" = true
  /\ Perm.checkRepoAccess carved_config "acme/secrets"
     = Throw (Perm.blacklisted "acme/secrets").
Proof.
  split; [reflexivity|].
  refine (proj1 (proj2 (checkRepoAccess_precedence
                          carved_config "acme/secrets") _) _).
  - discriminate.
  - split; [discriminate|].
    exists "acme/secrets". split; [apply list_elem_of_singleton|];
      reflexivity.
Defined.

(** C6. [checkPermission] raises the permission-denied failure iff the
    flag of the requested level is false and bypass is not set; it reads
    the flag of that level only, so one level being enabled says nothing
    about another; with bypass set every level is allowed. *)
Theorem checkPermission_denies_iff (config : Config)
    (level : PermissionLevel.t) :
  (Perm.checkPermission config level = Throw (Perm.permissionDenied level)
   <-> Perm.flag (permissions config) level = false
       /\ bypass_permissions config <> Some true)
  /\ (Perm.checkPermission config level = Return tt
      <-> Perm.flag (permissions config) level = true
          \/ bypass_permissions config = Some true)
  /\ (forall p : Permissions,
        Perm.checkPermission (mkConfig p (Some true)) level = Return tt)
  /\ (forall p q : Permissions,
        Perm.flag p level = Perm.flag q level ->
        Perm.checkPermission (mkConfig p (bypass_permissions config)) level
        = Perm.checkPermission (mkConfig q (bypass_permissions config))
                               level)
  /\ (forall wl bl,
        let p := mkPermissions false false false true wl bl in
        Perm.checkPermission (mkConfig p None) PermissionLevel.admin
        = Return tt
        /\ Perm.checkPermission (mkConfig p None) PermissionLevel.trigger
           = Throw (Perm.permissionDenied PermissionLevel.trigger)).
Proof.
  unfold Perm.checkPermission.
  split; [|split; [|split; [|split]]].
  - destruct (JS.truthy_bool (bypass_permissions config)) eqn:Hb.
    + apply truthy_bool_true in Hb. split; [discriminate|tauto].
    + assert (bypass_permissions config <> Some true) as Hn
        by (intros H; apply truthy_bool_true in H; congruence).
      destruct (Perm.flag (permissions config) level); simpl.
      * split; [discriminate|]. intros [? _]. discriminate.
      * tauto.
  - destruct (JS.truthy_bool (bypass_permissions config)) eqn:Hb.
    + apply truthy_bool_true in Hb. tauto.
    + assert (bypass_permissions config <> Some true) as Hn
        by (intros H; apply truthy_bool_true in H; congruence).
      destruct (Perm.flag (permissions config) level); simpl.
      * tauto.
      * split; [discriminate|]. intros [?|?]; [discriminate|contradiction].
  - reflexivity.
  - intros p q Hpq. simpl. rewrite Hpq. reflexivity.
  - intros wl bl. split; reflexivity.
Qed.

Lemma checkPermission_denies_iff_witness :
  Perm.flag DEFAULT_PERMISSIONS PermissionLevel.read
  = Perm.flag (permissions carved_config) PermissionLevel.read
  /\ Perm.checkPermission (mkConfig DEFAULT_PERMISSIONS None)
                          PermissionLevel.read
     = Perm.checkPermission (mkConfig (permissions carved_config) None)
                            PermissionLevel.read.
Proof.
  split; [reflexivity|].
  exact (proj1 (proj2 (proj2 (proj2
           (checkPermission_denies_iff (mkConfig DEFAULT_PERMISSIONS None)
                                       PermissionLevel.read))))
           DEFAULT_PERMISSIONS (permissions carved_config) eq_refl).
Defined.

(** The failures of the access checks are not the failure of
    [parseRepo]. *)
Lemma denied_not_invalid level repo :
  Perm.permissionDenied level <> Index.invalidRepoFormat repo.
Proof. discriminate. Qed.

Lemma blacklisted_not_invalid repo :
  Perm.blacklisted repo <> Index.invalidRepoFormat repo.
Proof. discriminate. Qed.

Lemma notInWhitelist_not_invalid repo :
  Perm.notInWhitelist repo <> Index.invalidRepoFormat repo.
Proof. discriminate. Qed.

Lemma checkRepoAccess_cases config repo :
  Perm.checkRepoAccess config repo = Return tt
  \/ Perm.checkRepoAccess config repo = Throw (Perm.blacklisted repo)
  \/ Perm.checkRepoAccess config repo = Throw (Perm.notInWhitelist repo).
Proof.
  unfold Perm.checkRepoAccess.
  destruct (JS.truthy_bool _); [tauto|].
  destruct (_ && _); [tauto|].
  destruct (_ =? _)%nat; [tauto|].
  destruct (negb _); tauto.
Qed.

Lemma checkRepoAccess_never_invalid config repo :
  Perm.checkRepoAccess config repo <> Throw (Index.invalidRepoFormat repo).
Proof.
  destruct (checkRepoAccess_cases config repo) as [H|[H|H]]; rewrite H.
  - discriminate.
  - intros [=].
  - intros [=].
Qed.

Lemma checkPermission_cases config level :
  Perm.checkPermission config level = Return tt
  \/ Perm.checkPermission config level
     = Throw (Perm.permissionDenied level).
Proof.
  unfold Perm.checkPermission.
  destruct (JS.truthy_bool _); [tauto|]. destruct (negb _); tauto.
Qed.

(** The prologue fails with the failure of [parseRepo] only when both
    access checks have let the resource through. *)
Lemma handlerPrologue_invalid config level repo :
  Index.handlerPrologue config level repo
  = Throw (Index.invalidRepoFormat repo)
  <-> Perm.checkPermission config level = Return tt
      /\ Perm.checkRepoAccess config repo = Return tt
      /\ Index.parseRepo repo = Throw (Index.invalidRepoFormat repo).
Proof.
  unfold Index.handlerPrologue.
  destruct (checkPermission_cases config level) as [Hp|Hp]; rewrite Hp.
  - destruct (checkRepoAccess_cases config repo) as [Ha|[Ha|Ha]];
      rewrite Ha; simpl.
    + tauto.
    + split; [intros [=]|intros (_ & [=] & _)].
    + split; [intros [=]|intros (_ & [=] & _)].
  - simpl. split; [intros [=]|intros ([=] & _)].
Qed.

Lemma split_length (s : string) :
  length (JS.split s) = S (count_slash s).
Proof.
  induction s as [|c s IH]; simpl; [reflexivity|].
  destruct (Ascii.eqb c JS.slash); simpl; [rewrite IH; reflexivity|].
  destruct (JS.split s) as [|hd tl]; simpl in *; [discriminate|exact IH].
Qed.

Lemma has_slash_count (s : string) :
  has_slash s = false <-> count_slash s = 0%nat.
Proof.
  induction s as [|c s IH]; simpl; [tauto|].
  destruct (Ascii.eqb c JS.slash); simpl; [split; discriminate|exact IH].
Qed.

Lemma parseRepo_no_slash (repo : string) :
  has_slash repo = false ->
  Index.parseRepo repo = Throw (Index.invalidRepoFormat repo).
Proof.
  intros H. unfold Index.parseRepo. rewrite (split_no_slash _ H). simpl.
  rewrite orb_true_r. reflexivity.
Qed.

Lemma parseRepo_segments (repo owner name : string) :
  JS.split repo !! 0%nat = Some owner ->
  JS.split repo !! 1%nat = Some name ->
  owner <> "" -> name <> "" ->
  Index.parseRepo repo = Return (owner, name).
Proof.
  intros Ho Hn Hoe Hne. unfold Index.parseRepo. rewrite Ho, Hn.
  destruct owner; [contradiction|]. destruct name; [contradiction|].
  reflexivity.
Qed.

(** C5, as the code has it. For a resource without separator,
    [checkRepoAccess] raises no invalid-format failure: it evaluates the
    patterns with the name segment undefined and allows or denies by its
    usual precedence. The invalid-format failure comes from [parseRepo],
    which the handlers call after the two access checks, so the prologue
    of a handler raises it exactly when both checks have allowed the
    resource. *)
Theorem malformed_resource_rejected_after_access_check
    (config : Config) (level : PermissionLevel.t) (repo : string) :
  has_slash repo = false ->
  Index.parseRepo repo = Throw (Index.invalidRepoFormat repo)
  /\ Perm.checkRepoAccess config repo
     <> Throw (Index.invalidRepoFormat repo)
  /\ (Index.handlerPrologue config level repo
      = Throw (Index.invalidRepoFormat repo)
      <-> Perm.checkPermission config level = Return tt
          /\ Perm.checkRepoAccess config repo = Return tt)
  /\ (forall pattern,
        Perm.matches repo pattern = true <->
        pattern = repo
        \/ (JS.split pattern !! 1%nat = Some "*"
            /\ JS.split pattern !! 0%nat = Some repo)
        \/ (JS.split pattern !! 0%nat = Some "*"
            /\ JS.split pattern !! 1%nat = None)).
Proof.
  intros H. pose proof (parseRepo_no_slash repo H) as Hp.
  split; [exact Hp|]. split; [apply checkRepoAccess_never_invalid|]. split.
  - rewrite handlerPrologue_invalid. tauto.
  - intros pattern. unfold Perm.matches.
    rewrite matchesPattern_true, (split_no_slash _ H). reflexivity.
Qed.

Lemma malformed_resource_rejected_after_access_check_witness :
  has_slash "no-slash-here" = false
  /\ Index.parseRepo "no-slash-here"
     = Throw (Index.invalidRepoFormat "no-slash-here").
Proof.
  split; [reflexivity|].
  exact (proj1 (malformed_resource_rejected_after_access_check
                  open_config PermissionLevel.read "no-slash-here"
                  eq_refl)).
Defined.

(** C5, as the specification states it, fails: the access check lets
    ["no-slash-here"] through when the lists are empty, denies it as not in
    the whitelist when a whitelist is set, and even matches it against the
    pattern [*]; none of these outcomes is the invalid-format failure. *)
Lemma malformed_resource_counterexample :
  ~ (has_slash "no-slash-here" = false ->
     Perm.checkRepoAccess acme_config "no-slash-here"
     = Throw (Index.invalidRepoFormat "no-slash-here"))
  /\ ~ (has_slash "no-slash-here" = false ->
        Index.handlerPrologue acme_config PermissionLevel.read
                              "no-slash-here"
        = Throw (Index.invalidRepoFormat "no-slash-here"))
  /\ Perm.checkRepoAccess open_config "no-slash-here" = Return tt
  /\ Perm.checkRepoAccess acme_config "no-slash-here"
     = Throw (Perm.notInWhitelist "no-slash-here")
  /\ Index.handlerPrologue acme_config PermissionLevel.read "no-slash-here"
     = Throw (Perm.notInWhitelist "no-slash-here")
  /\ Perm.matchesAny "no-slash-here" ["*"] = true.
Proof.
  split; [|split].
  - intros H. specialize (H eq_refl). discriminate H.
  - intros H. specialize (H eq_refl). discriminate H.
  - repeat split; reflexivity.
Qed.

(** C10, as the code has it. For every resource with two or more
    separators, [checkRepoAccess] raises no invalid-format failure and the
    patterns are evaluated on the first two segments only: the owner
    wildcard and the name wildcard built from these two segments match
    it, and two resources with the same first two segments are matched by
    the same patterns, the patterns equal to one of them apart.
    [parseRepo], which the handlers call after the access check, accepts
    such a resource, keeping the two segments, exactly when both are not
    empty; the handler then raises no invalid-format failure. *)
Theorem extra_segments_ignored
    (config : Config) (level : PermissionLevel.t)
    (repo owner name : string) :
  (2 <= count_slash repo)%nat ->
  JS.split repo !! 0%nat = Some owner ->
  JS.split repo !! 1%nat = Some name ->
  Perm.checkRepoAccess config repo
  <> Throw (Index.invalidRepoFormat repo)
  /\ Perm.matches repo (owner +:+ "/*") = true
  /\ Perm.matches repo ("*/" +:+ name) = true
  /\ (forall repo' pattern,
        JS.split repo' !! 0%nat = Some owner ->
        JS.split repo' !! 1%nat = Some name ->
        pattern <> repo -> pattern <> repo' ->
        Perm.matches repo pattern = Perm.matches repo' pattern)
  /\ (owner <> "" -> name <> "" ->
      Index.parseRepo repo = Return (owner, name)
      /\ Index.handlerPrologue config level repo
         <> Throw (Index.invalidRepoFormat repo))
  /\ (owner = "" \/ name = "" ->
      Index.parseRepo repo = Throw (Index.invalidRepoFormat repo)).
Proof.
  intros _ Ho Hn.
  assert (has_slash owner = false) as Hso
    by (eapply split_segments_no_slash, list_elem_of_lookup_2, Ho).
  assert (has_slash name = false) as Hsn
    by (eapply split_segments_no_slash, list_elem_of_lookup_2, Hn).
  split; [apply checkRepoAccess_never_invalid|].
  split; [|split; [|split; [|split]]].
  - unfold Perm.matches. apply matchesPattern_true. right. left.
    change (owner +:+ "/*") with (owner +:+ String JS.slash "*").
    rewrite (split_app_slash _ _ Hso), Ho. split; reflexivity.
  - unfold Perm.matches. apply matchesPattern_true. right. right.
    change ("*/" +:+ name) with (String "*" (String JS.slash name)).
    simpl. rewrite (split_no_slash _ Hsn), Hn. split; reflexivity.
  - intros repo' pattern Ho' Hn' Hne1 Hne2. unfold Perm.matches.
    rewrite Ho, Hn, Ho', Hn'. unfold Perm.matchesPattern.
    apply String.eqb_neq in Hne1, Hne2. rewrite Hne1, Hne2. reflexivity.
  - intros Hoe Hne.
    pose proof (parseRepo_segments repo owner name Ho Hn Hoe Hne) as Hp.
    split; [exact Hp|].
    rewrite handlerPrologue_invalid, Hp. intros (_ & _ & [=]).
  - intros He. unfold Index.parseRepo. rewrite Ho, Hn.
    destruct He as [-> | ->]; [reflexivity|].
    destruct owner; reflexivity.
Qed.

Lemma extra_segments_ignored_witness :
  Index.parseRepo "owner/name/extra" = Return ("owner", "name")
  /\ Perm.matches "owner/name/extra" "owner/*" = true
  /\ Perm.matches "owner/name/extra" "*/name" = true.
Proof.
  pose proof (extra_segments_ignored
                open_config PermissionLevel.read
                "owner/name/extra" "owner" "name"
                ltac:(simpl; lia) eq_refl eq_refl)
    as (_ & Ho & Hn & _ & Hp & _).
  destruct (Hp ltac:(discriminate) ltac:(discriminate)) as [Hp' _].
  exact (conj Hp' (conj Ho Hn)).
Defined.

(** C10, as stated, fails on a resource with two separators and an empty
    segment: [checkRepoAccess] lets it through, but [parseRepo], and so
    the prologue of every handler, rejects it as malformed. *)
Lemma extra_segments_counterexample :
  ~ ((2 <= count_slash "a//b")%nat ->
     Index.handlerPrologue open_config PermissionLevel.read "a//b"
     <> Throw (Index.invalidRepoFormat "a//b"))
  /\ count_slash "a//b" = 2%nat
  /\ JS.split "a//b" = ["a"; ""; "b"]
  /\ Perm.checkRepoAccess open_config "a//b" = Return tt
  /\ Index.parseRepo "a//b" = Throw (Index.invalidRepoFormat "a//b")
  /\ Index.handlerPrologue open_config PermissionLevel.read "a//b"
     = Throw (Index.invalidRepoFormat "a//b").
Proof.
  split; [|repeat split; reflexivity].
  intros H. apply H; [simpl; lia|reflexivity].
Qed.

End AccessControl.

(** ** Circuit breaker *)

Section Breaker.

Import Utils.

(** Unfolds one call and splits on every test it makes. *)
Ltac breaker_cases :=
  unfold step, check, success, failure, set_isOpen, set_lastFailure,
    set_failures in *;
  simpl in *;
  repeat match goal with
         | |- context [negb ?o] => destruct o eqn:?; simpl in *
         | |- context [?a <? ?b] => destruct (Z.ltb_spec a b); simpl in *
         | |- context [?a <=? ?b] => destruct (Z.leb_spec a b); simpl in *
         end.

(** The fields after one [failure()]. *)
Lemma failure_fields (t : Z) (b : CircuitBreaker) :
  failures (failure t b)
  = (if resetTimeMs b <? t - lastFailure b then 0 else failures b) + 1
  /\ lastFailure (failure t b) = t
  /\ isOpen (failure t b)
     = (threshold b <=? failures (failure t b)) || isOpen b
  /\ threshold (failure t b) = threshold b
  /\ resetTimeMs (failure t b) = resetTimeMs b.
Proof.
  unfold failure, set_isOpen, set_lastFailure, set_failures.
  destruct (Z.ltb_spec (resetTimeMs b) (t - lastFailure b)); simpl.
  - destruct (threshold b <=? 0 + 1) eqn:E; simpl; rewrite ?E; auto.
  - destruct (threshold b <=? failures b + 1) eqn:E; simpl; rewrite ?E; auto.
Qed.

(** The [readonly] fields keep the values given to the constructor. *)
Lemma step_readonly (c : call) (b : CircuitBreaker) :
  threshold (step c b) = threshold b
  /\ resetTimeMs (step c b) = resetTimeMs b
  /\ cooldownMs (step c b) = cooldownMs b.
Proof. destruct c; breaker_cases; auto. Qed.

Lemma step_failures_nonneg (c : call) (b : CircuitBreaker) :
  0 <= failures b -> 0 <= failures (step c b).
Proof. intros H. destruct c; breaker_cases; lia. Qed.

Lemma step_closed_below_threshold (c : call) (b : CircuitBreaker) :
  0 < threshold b -> 0 <= failures b ->
  (isOpen b = false -> failures b < threshold b) ->
  isOpen (step c b) = false -> failures (step c b) < threshold (step c b).
Proof.
  intros Ht Hf Hinv. destruct c; breaker_cases; intros Ho;
    try congruence; try lia; try (specialize (Hinv eq_refl); lia).
  all: destruct (isOpen b); [discriminate|specialize (Hinv eq_refl); lia].
Qed.

Lemma reachable_invariant (b0 b : CircuitBreaker) :
  0 < threshold b0 -> failures b0 = 0 -> isOpen b0 = false ->
  reachable b0 b ->
  threshold b = threshold b0
  /\ 0 <= failures b
  /\ (isOpen b = false -> failures b < threshold b).
Proof.
  intros Ht Hf Ho Hr. induction Hr as [|b c Hr (IHt & IHf & IHo)].
  - rewrite Hf. split; [reflexivity|]. split; [lia|]. intros _. exact Ht.
  - destruct (step_readonly c b) as (Et & _ & _).
    split; [congruence|]. split; [apply step_failures_nonneg, IHf|].
    apply step_closed_below_threshold; [lia|exact IHf|exact IHo].
Qed.

Lemma reachable_failures_nonneg (b0 b : CircuitBreaker) :
  failures b0 = 0 -> reachable b0 b -> 0 <= failures b.
Proof.
  intros H0 Hr. induction Hr as [|b c Hr IH]; [lia|].
  apply step_failures_nonneg, IH.
Qed.

Lemma run_reachable (cs : list call) (b0 : CircuitBreaker) :
  reachable b0 (run cs b0).
Proof.
  unfold run. generalize (reachable_init b0). generalize b0 at 2 4.
  induction cs as [|c cs IH]; simpl; intros b Hb; [exact Hb|].
  apply IH, reachable_step, Hb.
Qed.

(** C2, as the code has it. In every state reachable from a fresh breaker
    with a positive threshold: the failure count is not negative; a closed
    breaker has a count below the threshold; the call that opens a closed
    breaker is a [failure()], which leaves the count at or above the
    threshold and [lastFailure] at the current time; a [check()] on an
    open breaker whose last failure is older than the cooldown (strictly)
    closes it and resets the count to zero in the same step and lets the
    caller through; and every call that closes an open breaker is such a
    [check()] and leaves the count at zero. *)
Theorem breaker_reachable_invariant
    (th rt cd : option Z) (b : CircuitBreaker) :
  0 < default 3 th ->
  reachable (new_CircuitBreaker th rt cd) b ->
  0 <= failures b
  /\ (isOpen b = false -> failures b < threshold b)
  /\ (forall c, isOpen b = false -> isOpen (step c b) = true ->
        threshold b <= failures (step c b)
        /\ c = Failure (lastFailure (step c b)))
  /\ (forall now, isOpen b = true -> cooldownMs b < now - lastFailure b ->
        check now b = (Return tt, set_failures 0 (set_isOpen false b)))
  /\ (forall c, isOpen b = true -> isOpen (step c b) = false ->
        failures (step c b) = 0
        /\ exists now, c = Check now /\ cooldownMs b < now - lastFailure b).
Proof.
  intros Ht Hr.
  destruct (reachable_invariant (new_CircuitBreaker th rt cd) b
              Ht eq_refl eq_refl Hr) as (_ & Hf & Hc).
  split; [exact Hf|]. split; [exact Hc|]. split; [|split].
  - intros c Ho Ho'. destruct c; breaker_cases; try congruence.
    all: split; [lia|reflexivity].
  - intros now Ho Hcd. unfold check. rewrite Ho. simpl.
    destruct (Z.ltb_spec (cooldownMs b) (now - lastFailure b));
      [reflexivity|lia].
  - intros c Ho Ho'. destruct c; breaker_cases; try congruence.
    split; [reflexivity|]. eexists. split; [reflexivity|assumption].
Qed.

Lemma breaker_reachable_invariant_witness :
  0 < default 3 None
  /\ reachable (new_CircuitBreaker None None None) tripped_breaker
  /\ 0 <= failures tripped_breaker.
Proof.
  split; [reflexivity|]. split; [apply run_reachable|].
  exact (proj1 (breaker_reachable_invariant
                  None None None tripped_breaker
                  eq_refl (run_reachable _ _))).
Defined.

(** C2, as stated, fails: one [success()] after the breaker opened leaves
    it open with a count below the threshold; and an open breaker stays
    open when the cooldown has elapsed, also through a [check()] at the
    very end of the cooldown. *)
Lemma breaker_invariant_counterexample :
  reachable fresh_breaker (success tripped_breaker)
  /\ ~ (isOpen (success tripped_breaker) = true ->
        threshold (success tripped_breaker)
        <= failures (success tripped_breaker))
  /\ failures (success tripped_breaker) = 2
  /\ threshold (success tripped_breaker) = 3
  /\ reachable fresh_breaker (step (Check 301000) tripped_breaker)
  /\ ~ (isOpen (step (Check 301000) tripped_breaker) = true ->
        301000 - lastFailure (step (Check 301000) tripped_breaker)
        < cooldownMs (step (Check 301000) tripped_breaker))
  /\ ~ (cooldownMs tripped_breaker <= 301000 - lastFailure tripped_breaker ->
        isOpen (step (Check 301000) tripped_breaker) = false
        /\ failures (step (Check 301000) tripped_breaker) = 0)
  /\ isOpen (step (Check 301000) tripped_breaker) = true
  /\ failures (step (Check 301000) tripped_breaker) = 3.
Proof.
  split; [apply (reachable_step _ _ Success), run_reachable|].
  split; [intros H; specialize (H eq_refl); revert H; apply Z.lt_nge;
          reflexivity|].
  do 2 (split; [reflexivity|]).
  split; [apply (reachable_step _ _ (Check 301000)), run_reachable|].
  split; [intros H; specialize (H eq_refl); revert H; apply Z.le_ngt;
          discriminate|].
  split; [intros H; destruct H as [H _]; [discriminate|discriminate H]|].
  split; reflexivity.
Qed.

(** C4, as the code has it. A closed breaker opens exactly on a
    [failure()] that brings the count to the threshold or above; with
    threshold 3, three [failure()] calls open a fresh breaker when each
    comes within the reset window of the one before; an open breaker
    whose last failure is at most [cooldownMs] old makes [check()] fail
    with the circuit-open error and stays as it is; and the first
    [check()] with the last failure older than [cooldownMs] (strictly)
    returns normally with the breaker closed and the count at zero. *)
Theorem breaker_transitions (b : CircuitBreaker) (now : Z) :
  (forall c, isOpen b = false ->
     (isOpen (step c b) = true <->
      exists t, c = Failure t /\ threshold b <= failures (failure t b)))
  /\ (forall rt cd t1 t2 t3,
        t2 - t1 <= default 60000 rt -> t3 - t2 <= default 60000 rt ->
        isOpen (run [Failure t1; Failure t2; Failure t3]
                    (new_CircuitBreaker (Some 3) rt cd)) = true)
  /\ (isOpen b = true -> now - lastFailure b <= cooldownMs b ->
        check now b = (Throw (circuitOpen b now), b))
  /\ (isOpen b = true -> cooldownMs b < now - lastFailure b ->
        fst (check now b) = Return tt
        /\ isOpen (snd (check now b)) = false
        /\ failures (snd (check now b)) = 0
        /\ lastFailure (snd (check now b)) = lastFailure b).
Proof.
  split; [|split; [|split]].
  - intros c Ho. split.
    + intros Ho'. destruct c as [t| |t].
      * exfalso. revert Ho'. breaker_cases; congruence.
      * exfalso. revert Ho'. breaker_cases; congruence.
      * exists t. split; [reflexivity|]. revert Ho'.
        breaker_cases; intros; try lia; congruence.
    + intros (t & -> & Hth). breaker_cases; try lia; congruence.
  - intros rt cd t1 t2 t3 H12 H23. unfold run. cbn [fold_left step].
    set (b0 := new_CircuitBreaker (Some 3) rt cd).
    destruct (failure_fields t1 b0) as (F1 & L1 & _ & T1 & R1).
    destruct (failure_fields t2 (failure t1 b0)) as (F2 & L2 & _ & T2 & R2).
    destruct (failure_fields t3 (failure t2 (failure t1 b0)))
      as (F3 & _ & O3 & T3 & _).
    set (b1 := failure t1 b0) in *. set (b2 := failure t2 b1) in *.
    change (threshold b0) with 3 in T1.
    change (resetTimeMs b0) with (default 60000 rt) in R1.
    change (failures b0) with 0 in F1.
    assert (failures b1 = 1) as E1
      by (rewrite F1; destruct (_ <? _); reflexivity).
    assert (failures b2 = 2) as E2.
    { rewrite F2, R1, L1, E1.
      destruct (Z.ltb_spec (default 60000 rt) (t2 - t1)); [lia|reflexivity]. }
    assert (failures (failure t3 b2) = 3) as E3.
    { rewrite F3, R2, R1, L2, E2.
      destruct (Z.ltb_spec (default 60000 rt) (t3 - t2)); [lia|reflexivity]. }
    rewrite O3, E3, T2, T1. reflexivity.
  - intros Ho Hcd. unfold check. rewrite Ho. simpl.
    destruct (Z.ltb_spec (cooldownMs b) (now - lastFailure b));
      [lia|reflexivity].
  - intros Ho Hcd. unfold check. rewrite Ho. simpl.
    destruct (Z.ltb_spec (cooldownMs b) (now - lastFailure b));
      [repeat split|lia].
Qed.

Lemma breaker_transitions_witness :
  isOpen tripped_breaker = true
  /\ 301001 - lastFailure tripped_breaker > cooldownMs tripped_breaker
  /\ fst (check 301001 tripped_breaker) = Return tt
  /\ failures (snd (check 301001 tripped_breaker)) = 0.
Proof.
  split; [reflexivity|]. split; [reflexivity|].
  destruct (proj2 (proj2 (proj2 (breaker_transitions tripped_breaker 301001)))
              eq_refl eq_refl) as (Hr & _ & Hf & _).
  exact (conj Hr Hf).
Defined.

(** C4, as stated, fails at the end of the cooldown: a [check()] with
    [now - lastFailure] equal to the cooldown still fails and resets
    nothing; and three [failure()] calls further apart than the reset
    window leave a breaker of threshold 3 closed. *)
Lemma lazy_close_counterexample :
  isOpen tripped_breaker = true
  /\ ~ (cooldownMs tripped_breaker <= 301000 - lastFailure tripped_breaker ->
        fst (check 301000 tripped_breaker) = Return tt
        /\ failures (snd (check 301000 tripped_breaker)) = 0)
  /\ check 301000 tripped_breaker
     = (Throw (circuitOpen tripped_breaker 301000), tripped_breaker)
  /\ failures (snd (check 301000 tripped_breaker)) = 3
  /\ threshold fresh_breaker = 3
  /\ ~ (isOpen (run [Failure 1000; Failure 100000; Failure 200000]
                    fresh_breaker) = true).
Proof.
  split; [reflexivity|].
  split; [intros H; destruct H as [H _]; [discriminate|discriminate H]|].
  do 3 (split; [reflexivity|]). discriminate.
Qed.

(** C7. One [success()] lowers the failure count by one when it is
    positive and leaves it otherwise, so never below zero in a state that
    an instance can reach; it changes no other field: an open breaker
    stays open, [lastFailure] is kept, and a [check()] that failed before
    the call fails after it. *)
Theorem success_frame (b : CircuitBreaker) (now : Z) :
  (0 < failures b -> failures (success b) = failures b - 1)
  /\ (failures b <= 0 -> failures (success b) = failures b)
  /\ failures b - 1 <= failures (success b) <= failures b
  /\ (0 <= failures b -> 0 <= failures (success b))
  /\ (forall th rt cd,
        reachable (new_CircuitBreaker th rt cd) b ->
        0 <= failures (success b))
  /\ isOpen (success b) = isOpen b
  /\ lastFailure (success b) = lastFailure b
  /\ threshold (success b) = threshold b
  /\ resetTimeMs (success b) = resetTimeMs b
  /\ cooldownMs (success b) = cooldownMs b
  /\ (isOpen b = true -> now - lastFailure b <= cooldownMs b ->
        check now (success b)
        = (Throw (circuitOpen b now), success b)).
Proof.
  assert (forall th rt cd,
            reachable (new_CircuitBreaker th rt cd) b -> 0 <= failures b)
    as Hreach
    by (intros th rt cd; apply reachable_failures_nonneg; reflexivity).
  unfold success.
  destruct (Z.ltb_spec 0 (failures b)); simpl;
    repeat split; try lia; try reflexivity.
  all: try (intros th rt cd Hr; specialize (Hreach th rt cd Hr); lia).
  all: intros Ho Hcd; unfold check; simpl; rewrite Ho; simpl.
  all: destruct (Z.ltb_spec (cooldownMs b) (now - lastFailure b));
    [lia|reflexivity].
Qed.

Lemma success_frame_witness :
  0 < failures tripped_breaker
  /\ failures (success tripped_breaker) = failures tripped_breaker - 1.
Proof.
  split; [reflexivity|].
  exact (proj1 (success_frame tripped_breaker 2000) eq_refl).
Defined.

End Breaker.

(** ** Rate limit headers *)

Section RateLimit.

Import Utils.

Lemma digit_cases (d : N) :
  (d < 10)%N ->
  d = 0%N \/ d = 1%N \/ d = 2%N \/ d = 3%N \/ d = 4%N \/ d = 5%N
  \/ d = 6%N \/ d = 7%N \/ d = 8%N \/ d = 9%N.
Proof. lia. Qed.

Ltac each_digit d H :=
  destruct (digit_cases d H)
    as [->|[->|[->|[->|[->|[->|[->|[->|[->| ->]]]]]]]]].

Lemma digit_value_char (d : N) :
  (d < 10)%N -> JS.digit_value (pretty_N_char d) = Some (Z.of_N d).
Proof. intros H. each_digit d H; reflexivity. Qed.

Lemma digit_char_plain (d : N) :
  (d < 10)%N ->
  JS.is_white (pretty_N_char d) = false
  /\ Ascii.eqb (pretty_N_char d) "-" = false
  /\ Ascii.eqb (pretty_N_char d) "+" = false.
Proof. intros H. each_digit d H; repeat split; reflexivity. Qed.

(** Reading back the digits that [pretty] prints for [x]. *)
Lemma digits_pretty_N_go (x : N) : forall s : string,
  fold_left (fun acc d => 10 * acc + d)
            (JS.digits_prefix (pretty_N_go x s)) 0
  = fold_left (fun acc d => 10 * acc + d)
              (JS.digits_prefix s) (Z.of_N x).
Proof.
  induction x as [x IH] using (well_founded_induction N.lt_wf_0).
  intros s. destruct (decide (x = 0%N)) as [->|Hx].
  - rewrite pretty_N_go_0. reflexivity.
  - rewrite pretty_N_go_step by lia.
    rewrite IH by (apply N.div_lt; lia).
    simpl JS.digits_prefix.
    rewrite digit_value_char by (apply N.mod_lt; lia).
    simpl fold_left. f_equal.
    pose proof (N.div_mod x 10 ltac:(discriminate)) as E.
    revert E. generalize (x `div` 10)%N (x `mod` 10)%N. lia.
Qed.

Lemma pretty_N_go_head (x : N) : forall s : string,
  (0 < x)%N ->
  exists d rest, (d < 10)%N /\ pretty_N_go x s = String (pretty_N_char d) rest.
Proof.
  induction x as [x IH] using (well_founded_induction N.lt_wf_0).
  intros s Hx. rewrite pretty_N_go_step by exact Hx.
  destruct (decide (x `div` 10 = 0)%N) as [E|E].
  - rewrite E, pretty_N_go_0. eexists _, _. split; [|reflexivity].
    apply N.mod_lt. lia.
  - apply IH; [apply N.div_lt; lia|].
    revert E. generalize (x `div` 10)%N. lia.
Qed.

Lemma parseInt_digits (c : ascii) (rest : string) (d : Z) :
  JS.is_white c = false -> Ascii.eqb c "-" = false ->
  Ascii.eqb c "+" = false -> JS.digit_value c = Some d ->
  JS.parseInt (String c rest)
  = JS.Num (JS.mathInt (JS.digits_prefix (String c rest))).
Proof.
  intros Hw Hm Hp Hd. unfold JS.parseInt. simpl JS.trim_start.
  rewrite Hw, Hm, Hp. simpl. rewrite Hd.
  f_equal. destruct (JS.mathInt _); reflexivity.
Qed.

Lemma digits_prefix_pretty_N (n : N) :
  n <> 0%N ->
  JS.digits_prefix (pretty n) <> []
  /\ JS.mathInt (JS.digits_prefix (pretty n)) = Z.of_N n.
Proof.
  intros Hn. unfold pretty, pretty_N.
  destruct (decide (n = 0%N)) as [?|_]; [contradiction|]. split.
  - destruct (pretty_N_go_head n "" ltac:(lia)) as (d & rest & Hd & E).
    rewrite E. simpl. rewrite (digit_value_char d Hd). discriminate.
  - unfold JS.mathInt. rewrite digits_pretty_N_go. reflexivity.
Qed.

Lemma parseInt_minus (s : string) :
  JS.parseInt (String "-" s)
  = match JS.digits_prefix s with
    | [] => JS.NaN
    | ds => JS.Num (-1 * JS.mathInt ds)
    end.
Proof. reflexivity. Qed.

Lemma parseInt_pretty_N (n : N) :
  JS.parseInt (pretty n) = JS.Num (Z.of_N n)
  /\ pretty n <> "".
Proof.
  unfold pretty, pretty_N. destruct (decide (n = 0%N)) as [->|Hn].
  - split; [reflexivity|discriminate].
  - destruct (pretty_N_go_head n "" ltac:(lia)) as (d & rest & Hd & E).
    destruct (digit_char_plain d Hd) as (Hw & Hm & Hp).
    split; [|rewrite E; discriminate].
    rewrite E, (parseInt_digits _ _ _ Hw Hm Hp (digit_value_char d Hd)).
    rewrite <- E. unfold JS.mathInt. rewrite digits_pretty_N_go.
    reflexivity.
Qed.

(** [parseInt] reads back every integer printed in decimal. *)
Lemma parseInt_pretty (z : Z) : JS.parseInt (pretty z) = JS.Num z.
Proof.
  destruct z as [|p|p].
  - reflexivity.
  - apply (parseInt_pretty_N (N.pos p)).
  - change (pretty (Z.neg p)) with (String "-" (pretty (N.pos p))).
    rewrite parseInt_minus.
    destruct (digits_prefix_pretty_N (N.pos p) ltac:(discriminate))
      as [Hne Hv].
    destruct (JS.digits_prefix (pretty (N.pos p))) as [|d ds];
      [contradiction|].
    rewrite Hv. reflexivity.
Qed.

Lemma pretty_Z_nonempty (z : Z) : pretty z <> "".
Proof.
  destruct z as [|p|p]; [discriminate| |discriminate].
  apply (parseInt_pretty_N (N.pos p)).
Qed.

Lemma truthy_string_false (v : option string) :
  JS.truthy_string v = false <-> absent_or_empty v.
Proof.
  unfold absent_or_empty. destruct v as [[|c s]|]; simpl.
  - tauto.
  - split; [discriminate|]. intros [?|?]; discriminate.
  - tauto.
Qed.

(** C8, as the code has it. The parser returns no data exactly when one
    of the three headers is absent or is the empty string, and a snapshot
    otherwise. For header values in ASCII whose numbers JavaScript holds
    without rounding (up to 2^53 in magnitude), the snapshot holds
    [parseInt] of the remaining and limit headers and the date of
    [parseInt] of the reset header times 1000 milliseconds. Headers that
    hold such integers in decimal give these integers back, and a reset
    time within the range of dates gives its millisecond timestamp. *)
Theorem parseRateLimitHeaders_snapshot
    (headers : gmap string string) (r l t : option string) :
  headers !! "x-ratelimit-remaining" = r ->
  headers !! "x-ratelimit-limit" = l ->
  headers !! "x-ratelimit-reset" = t ->
  (parseRateLimitHeaders headers = None
   <-> absent_or_empty r \/ absent_or_empty l \/ absent_or_empty t)
  /\ (forall rs ls ts,
        r = Some rs -> l = Some ls -> t = Some ts ->
        rs <> "" -> ls <> "" -> ts <> "" ->
        is_Some (parseRateLimitHeaders headers))
  /\ (forall rs ls ts,
        r = Some rs -> l = Some ls -> t = Some ts ->
        rs <> "" -> ls <> "" -> ts <> "" ->
        within_parseInt_model rs -> within_parseInt_model ls ->
        within_parseInt_model ts ->
        parseRateLimitHeaders headers
        = Some {| remaining := JS.parseInt rs;
                  limit := JS.parseInt ls;
                  reset_at :=
                    JS.new_Date (JS.times (JS.parseInt ts) 1000) |})
  /\ (forall rn ln tn : Z,
        r = Some (pretty rn) -> l = Some (pretty ln) ->
        t = Some (pretty tn) ->
        Z.abs rn <= 9007199254740992 -> Z.abs ln <= 9007199254740992 ->
        Z.abs (tn * 1000) <= 8640000000000000 ->
        parseRateLimitHeaders headers
        = Some {| remaining := JS.Num rn;
                  limit := JS.Num ln;
                  reset_at := JS.mkDate (JS.Num (tn * 1000)) |}).
Proof.
  intros Hr Hl Ht.
  assert (forall rs ls ts,
            r = Some rs -> l = Some ls -> t = Some ts ->
            rs <> "" -> ls <> "" -> ts <> "" ->
            parseRateLimitHeaders headers
            = Some {| remaining := JS.parseInt rs;
                      limit := JS.parseInt ls;
                      reset_at :=
                        JS.new_Date (JS.times (JS.parseInt ts) 1000) |})
    as Hsome.
  { intros rs ls ts -> -> -> Hrs Hls Hts.
    unfold parseRateLimitHeaders. rewrite Hr, Hl, Ht.
    destruct rs; [contradiction|]. destruct ls; [contradiction|].
    destruct ts; [contradiction|]. reflexivity. }
  split; [|split; [|split]].
  - rewrite <- !truthy_string_false.
    unfold parseRateLimitHeaders. rewrite Hr, Hl, Ht.
    destruct (JS.truthy_string r) eqn:Er, (JS.truthy_string l) eqn:El,
      (JS.truthy_string t) eqn:Et; simpl; try tauto.
    destruct r as [[|? ?]|], l as [[|? ?]|], t as [[|? ?]|];
      try discriminate.
    split; [discriminate|]. intros [?|[?|?]]; discriminate.
  - intros rs ls ts Er El Et Hrs Hls Hts.
    rewrite (Hsome _ _ _ Er El Et Hrs Hls Hts). eexists. reflexivity.
  - intros rs ls ts Er El Et Hrs Hls Hts _ _ _.
    exact (Hsome _ _ _ Er El Et Hrs Hls Hts).
  - intros rn ln tn Er El Et _ _ Hrange.
    rewrite (Hsome _ _ _ Er El Et) by apply pretty_Z_nonempty.
    rewrite !parseInt_pretty. simpl JS.times. unfold JS.new_Date.
    destruct (Z.ltb_spec 8640000000000000 (Z.abs (tn * 1000)));
      [lia|reflexivity].
Qed.

Lemma parseRateLimitHeaders_snapshot_witness :
  parseRateLimitHeaders (quota_headers "4892" "5000" "1700000000")
  = Some {| remaining := JS.Num 4892;
            limit := JS.Num 5000;
            reset_at := JS.mkDate (JS.Num 1700000000000) |}.
Proof.
  refine (proj2 (proj2 (proj2 (parseRateLimitHeaders_snapshot
                                 (quota_headers "4892" "5000" "1700000000")
                                 (Some "4892") (Some "5000")
                                 (Some "1700000000") _ _ _)))
            4892 5000 1700000000 eq_refl eq_refl eq_refl _ _ _);
    vm_compute; first [reflexivity|discriminate].
Defined.

(** C8, as stated, fails on a response that carries the three headers
    with one of them empty: the parser returns no data, not a snapshot. *)
Lemma empty_header_counterexample :
  ~ (is_Some (quota_headers "" "5000" "1700000000"
                !! "x-ratelimit-remaining") ->
     is_Some (quota_headers "" "5000" "1700000000" !! "x-ratelimit-limit") ->
     is_Some (quota_headers "" "5000" "1700000000" !! "x-ratelimit-reset") ->
     is_Some (parseRateLimitHeaders (quota_headers "" "5000" "1700000000")))
  /\ quota_headers "" "5000" "1700000000" !! "x-ratelimit-remaining"
     = Some ""
  /\ quota_headers "" "5000" "1700000000" !! "x-ratelimit-limit"
     = Some "5000"
  /\ quota_headers "" "5000" "1700000000" !! "x-ratelimit-reset"
     = Some "1700000000"
  /\ parseRateLimitHeaders (quota_headers "" "5000" "1700000000") = None.
Proof.
  assert (parseRateLimitHeaders (quota_headers "" "5000" "1700000000")
          = None) as Hnone by (vm_compute; reflexivity).
  split; [|repeat split; vm_compute; reflexivity].
  intros H. rewrite Hnone in H.
  destruct H as [x Hx]; [vm_compute; eauto ..|discriminate Hx].
Qed.

End RateLimit.

(** ** Deadline guard *)

Section Deadline.

Import Utils.

Lemma string_app_length (s t : string) :
  String.length (s +:+ t) = (String.length s + String.length t)%nat.
Proof. induction s as [|c s IH]; simpl; [reflexivity|]. rewrite IH. reflexivity. Qed.

(** Cancellation of a common suffix. *)
Lemma string_app_inj_r (t s1 s2 : string) :
  s1 +:+ t = s2 +:+ t -> s1 = s2.
Proof.
  revert s2. induction s1 as [|c s1 IH]; intros [|d s2] H; simpl in H.
  - reflexivity.
  - apply (f_equal String.length) in H.
    rewrite ?string_app_length in H. simpl in H.
    rewrite ?string_app_length in H. lia.
  - apply (f_equal String.length) in H.
    rewrite ?string_app_length in H. simpl in H.
    rewrite ?string_app_length in H. lia.
  - injection H as -> H. f_equal. apply IH, H.
Qed.

Lemma pretty_N_go_not_NaN (x : N) (s r : string) :
  (0 < x)%N -> pretty_N_go x s <> String "N" r.
Proof.
  intros Hx E. destruct (pretty_N_go_head x s Hx) as (d & tl & Hd & E').
  rewrite E' in E. injection E as E _. revert E.
  destruct (digit_cases d Hd)
    as [->|[->|[->|[->|[->|[->|[->|[->|[->| ->]]]]]]]]]; discriminate.
Qed.

Lemma pretty_Z_not_NaN (z : Z) (r : string) : pretty z <> String "N" r.
Proof.
  destruct z as [|p|p]; [discriminate| |discriminate].
  apply (pretty_N_go_not_NaN (N.pos p) "" r). lia.
Qed.

(** The default message names the bound. *)
Lemma timeoutMessage_default_inj (ms ms' : JS.number) :
  timeoutMessage ms None = timeoutMessage ms' None -> ms = ms'.
Proof.
  unfold timeoutMessage. intros H.
  apply (inj (String.app "Operation timed out after ")) in H.
  apply string_app_inj_r in H.
  destruct ms as [|z], ms' as [|z']; simpl in H.
  - reflexivity.
  - symmetry in H. destruct (pretty_Z_not_NaN _ _ H).
  - destruct (pretty_Z_not_NaN _ _ H).
  - apply (inj pretty) in H. subst. reflexivity.
Qed.

(** C9, as the code has it. When the timer settles first, [withTimeout]
    rejects with a plain [Error] whose message is the message of the
    caller when one is given and not empty, and otherwise the default text
    that names the bound: in decimal for an integral bound that JavaScript
    prints without rounding (up to 2^53 in magnitude), as [NaN] for a
    bound that is not a number. The settlement of the operation, when it
    comes first, is passed on unchanged; and the rejection of the timer
    is the one the operation itself would produce by failing with the
    same message. *)
Theorem withTimeout_timer_first
    (T : Type) (ms : JS.number) (message : option string) :
  (forall m, message = Some m -> m <> "" ->
     withTimeout (T := T) TimerFirst ms message = Rejected (mkError m)
     /\ withTimeout (T := T) TimerFirst ms message
        = withTimeout (PromiseFirst (Rejected (mkError m))) ms message)
  /\ (forall z, ms = JS.Num z -> Z.abs z <= 9007199254740992 ->
      absent_or_empty message ->
      withTimeout (T := T) TimerFirst ms message
      = Rejected (mkError ("Operation timed out after " +:+ pretty z
                           +:+ "ms")))
  /\ (ms = JS.NaN -> absent_or_empty message ->
      withTimeout (T := T) TimerFirst ms message
      = Rejected (mkError "Operation timed out after NaNms"))
  /\ (forall ms', exact_number ms -> exact_number ms' ->
                  withTimeout (T := T) TimerFirst ms None
                  = withTimeout TimerFirst ms' None ->
                  ms = ms')
  /\ (forall s : settlement T, withTimeout (PromiseFirst s) ms message = s)
  /\ (exact_number ms ->
      forall e : Error,
        withTimeout (T := T) TimerFirst ms message
        = withTimeout (PromiseFirst (Rejected e)) ms message
        <-> e = mkError (timeoutMessage ms message)).
Proof.
  split; [|split; [|split; [|split; [|split]]]].
  - intros m -> Hm. destruct m; [contradiction|]. split; reflexivity.
  - intros z -> _ [->| ->]; reflexivity.
  - intros -> [->| ->]; reflexivity.
  - intros ms' _ _ H. apply timeoutMessage_default_inj.
    unfold withTimeout in H. congruence.
  - reflexivity.
  - intros _ e. simpl. split; [intros [=]; auto|intros ->; reflexivity].
Qed.

Lemma withTimeout_timer_first_witness :
  Z.abs 50 <= 9007199254740992
  /\ absent_or_empty None
  /\ withTimeout (T := unit) TimerFirst (JS.Num 50) None
     = Rejected (mkError "Operation timed out after 50ms").
Proof.
  assert (Z.abs 50 <= 9007199254740992) as Hex by (vm_compute; discriminate).
  split; [exact Hex|]. split; [left; reflexivity|].
  exact (proj1 (proj2 (withTimeout_timer_first unit (JS.Num 50) None))
           50 eq_refl Hex (or_introl eq_refl)).
Defined.

(** C9, as stated, fails when the caller passes a message: the error
    holds that message alone, the same for every bound, and is equal to
    the failure of an operation that rejects with the same message. *)
Lemma timeout_error_counterexample :
  ~ (forall ms' : Z,
       withTimeout (T := unit) TimerFirst (JS.Num 50) (Some "gave up")
       = withTimeout TimerFirst (JS.Num ms') (Some "gave up") -> 50 = ms')
  /\ ~ (forall e : Error,
          withTimeout (T := unit) TimerFirst (JS.Num 50) (Some "gave up")
          <> withTimeout (PromiseFirst (Rejected e)) (JS.Num 50)
                         (Some "gave up"))
  /\ withTimeout (T := unit) TimerFirst (JS.Num 50) (Some "gave up")
     = Rejected (mkError "gave up")
  /\ withTimeout (T := unit) TimerFirst (JS.Num 50) (Some "gave up")
     = withTimeout TimerFirst (JS.Num 1000) (Some "gave up")
  /\ withTimeout (T := unit) TimerFirst (JS.Num 50) (Some "gave up")
     = withTimeout (PromiseFirst (Rejected (mkError "gave up"))) (JS.Num 50)
                   (Some "gave up").
Proof.
  split; [|split; [|repeat split; reflexivity]].
  - intros H. specialize (H 1000 eq_refl). discriminate H.
  - intros H. apply (H (mkError "gave up")). reflexivity.
Qed.

End Deadline.

(** * Further properties of the sources *)

(** ** Splitting and joining *)

Section Strings.

Lemma string_app_cons (x : ascii) (a b : string) :
  String x a +:+ b = String x (a +:+ b).
Proof. reflexivity. Qed.

Lemma string_app_assoc (a b c : string) :
  (a +:+ b) +:+ c = a +:+ (b +:+ c).
Proof.
  induction a as [|x a IH]; [reflexivity|].
  rewrite !string_app_cons, IH. reflexivity.
Qed.

Lemma string_app_nil_r (a : string) : a +:+ "" = a.
Proof.
  induction a as [|x a IH]; [reflexivity|].
  rewrite string_app_cons, IH. reflexivity.
Qed.

Lemma split_is_split_on (s : string) :
  JS.split s = JSLib.split_on JS.slash s.
Proof.
  induction s as [|c s IH]; simpl; [reflexivity|]. rewrite IH. reflexivity.
Qed.

Lemma has_slash_has_char (s : string) : has_slash s = has_char JS.slash s.
Proof.
  induction s as [|c s IH]; simpl; [reflexivity|]. rewrite IH. reflexivity.
Qed.

Lemma split_on_nonempty (sep : ascii) (s : string) :
  JSLib.split_on sep s <> [].
Proof.
  induction s as [|c s IH]; simpl; [discriminate|].
  destruct (Ascii.eqb c sep); [discriminate|].
  destruct (JSLib.split_on sep s); discriminate.
Qed.

Lemma join_cons (sep x : string) (l : list string) :
  l <> [] -> JSLib.join sep (x :: l) = x +:+ sep +:+ JSLib.join sep l.
Proof. destruct l; [contradiction|reflexivity]. Qed.

(** Joining the segments of a string gives the string back. *)
Lemma join_split_on (sep : ascii) (s : string) :
  JSLib.join (String sep "") (JSLib.split_on sep s) = s.
Proof.
  induction s as [|c s IH]; simpl JSLib.split_on; [reflexivity|].
  destruct (Ascii.eqb c sep) eqn:Hc.
  - apply Ascii.eqb_eq in Hc. subst c.
    rewrite join_cons by apply split_on_nonempty. rewrite IH. reflexivity.
  - destruct (JSLib.split_on sep s) as [|seg segs] eqn:Hs.
    + destruct (split_on_nonempty sep s Hs).
    + rewrite <- IH. destruct segs as [|seg' segs']; reflexivity.
Qed.

Lemma split_on_no_sep (sep : ascii) (s : string) :
  has_char sep s = false -> JSLib.split_on sep s = [s].
Proof.
  induction s as [|c s IH]; simpl; [reflexivity|].
  intros H. apply orb_false_iff in H as [Hc Hs].
  rewrite Hc, (IH Hs). reflexivity.
Qed.

Lemma split_on_app (sep : ascii) (a b : string) :
  has_char sep a = false ->
  JSLib.split_on sep (a +:+ String sep b) = a :: JSLib.split_on sep b.
Proof.
  induction a as [|c a IH]; simpl; intros H.
  - rewrite Ascii.eqb_refl. reflexivity.
  - apply orb_false_iff in H as [Hc Ha].
    rewrite Hc, (IH Ha). reflexivity.
Qed.

Lemma split_on_segments (sep : ascii) (s : string) :
  Forall (fun seg => has_char sep seg = false) (JSLib.split_on sep s).
Proof.
  induction s as [|c s IH]; simpl.
  - repeat constructor.
  - destruct (Ascii.eqb c sep) eqn:Hc.
    + constructor; [reflexivity|exact IH].
    + destruct (JSLib.split_on sep s) as [|seg segs].
      * repeat constructor. simpl. rewrite Hc. reflexivity.
      * inversion IH as [|? ? Hseg Hsegs]; subst.
        constructor; [simpl; rewrite Hc; exact Hseg|exact Hsegs].
Qed.

(** Splitting the join of segments without separator gives the segments
    back. *)
Lemma split_on_join (sep : ascii) (l : list string) :
  l <> [] ->
  Forall (fun seg => has_char sep seg = false) l ->
  JSLib.split_on sep (JSLib.join (String sep "") l) = l.
Proof.
  induction l as [|x l IH]; [contradiction|]. intros _ Hall.
  inversion Hall as [|? ? Hx Hl]; subst.
  destruct l as [|y l'].
  - simpl. apply split_on_no_sep, Hx.
  - rewrite join_cons by discriminate.
    change (x +:+ String sep "" +:+ JSLib.join (String sep "") (y :: l'))
      with (x +:+ String sep (JSLib.join (String sep "") (y :: l'))).
    rewrite (split_on_app _ _ _ Hx), IH; [reflexivity|discriminate|exact Hl].
Qed.

(** The join of a tail of the list is a suffix of the join of the list. *)
Lemma join_drop_suffix (sep : string) (k : nat) (l : list string) :
  exists pre, JSLib.join sep l = pre +:+ JSLib.join sep (drop k l).
Proof.
  revert l. induction k as [|k IH]; intros l.
  - exists "". reflexivity.
  - destruct l as [|x l]; [exists ""; reflexivity|].
    destruct l as [|y l'].
    + exists x.
      replace (drop (S k) [x]) with (@nil string)
        by (destruct k; reflexivity).
      change (x = x +:+ ""). rewrite string_app_nil_r. reflexivity.
    + destruct (IH (y :: l')) as [pre Hpre].
      exists (x +:+ sep +:+ pre). rewrite join_cons by discriminate.
      rewrite Hpre. change (drop (S k) (x :: y :: l')) with (drop k (y :: l')).
      rewrite !string_app_assoc. reflexivity.
Qed.

End Strings.

(** ** Resources and the prologue of the handlers *)

Section Resources.

Lemma parseRepo_cases (repo : string) :
  (exists o n, Index.parseRepo repo = Return (o, n))
  \/ Index.parseRepo repo = Throw (Index.invalidRepoFormat repo).
Proof.
  unfold Index.parseRepo.
  destruct (JS.split repo !! 0%nat) as [[|c o]|];
    destruct (JS.split repo !! 1%nat) as [[|d n]|]; simpl; eauto.
Qed.

(** X1. [parseRepo] accepts a resource exactly when its first two
    segments exist and are not empty, and returns these two segments;
    every other resource is refused with the invalid-format error. What
    it returns holds no separator, and the resource is the owner, a
    separator and the name, followed by nothing or by a further separator
    and more text. *)
Theorem parseRepo_accepts_iff (repo : string) :
  (forall o n,
     Index.parseRepo repo = Return (o, n)
     <-> JS.split repo !! 0%nat = Some o /\ JS.split repo !! 1%nat = Some n
         /\ o <> "" /\ n <> "")
  /\ ((forall o n, Index.parseRepo repo <> Return (o, n)) ->
      Index.parseRepo repo = Throw (Index.invalidRepoFormat repo))
  /\ (forall o n,
        Index.parseRepo repo = Return (o, n) ->
        has_slash o = false /\ has_slash n = false
        /\ (repo = o +:+ "/" +:+ n
            \/ exists rest, repo = o +:+ "/" +:+ n +:+ "/" +:+ rest)).
Proof.
  assert (forall o n,
            Index.parseRepo repo = Return (o, n)
            <-> JS.split repo !! 0%nat = Some o
                /\ JS.split repo !! 1%nat = Some n /\ o <> "" /\ n <> "")
    as Hiff.
  { intros o n. split.
    - unfold Index.parseRepo.
      destruct (JS.split repo !! 0%nat) as [[|c o']|];
        destruct (JS.split repo !! 1%nat) as [[|d n']|]; simpl;
        try discriminate.
      intros [= <- <-]. repeat split; discriminate.
    - intros (Ho & Hn & Hoe & Hne). apply parseRepo_segments; assumption. }
  split; [exact Hiff|]. split.
  - intros Hne. destruct (parseRepo_cases repo) as [(o' & n' & H)|H];
      [destruct (Hne o' n' H)|exact H].
  - intros o n H. apply Hiff in H as (Ho & Hn & _ & _).
    split; [eapply split_segments_no_slash, list_elem_of_lookup_2, Ho|].
    split; [eapply split_segments_no_slash, list_elem_of_lookup_2, Hn|].
    pose proof (join_split_on JS.slash repo) as Hj.
    rewrite <- split_is_split_on in Hj.
    destruct (JS.split repo) as [|a [|b l]]; simpl in Ho, Hn;
      try discriminate.
    injection Ho as ->. injection Hn as ->.
    destruct l as [|c l'].
    + left. rewrite <- Hj. reflexivity.
    + right. exists (JSLib.join (String JS.slash "") (c :: l')).
      rewrite <- Hj at 1.
      rewrite join_cons by discriminate. rewrite join_cons by discriminate.
      reflexivity.
Qed.

Lemma parseRepo_accepts_iff_witness :
  Index.parseRepo "acme/web/tree" = Return ("acme", "web")
  /\ has_slash "acme" = false.
Proof.
  split; [reflexivity|].
  exact (proj1 (proj2 (proj2 (parseRepo_accepts_iff "acme/web/tree"))
                  "acme" "web" eq_refl)).
Defined.

(** X2. Round trip: an owner and a name that are not empty and hold no
    separator, written as [owner/name], are parsed back to the same
    pair. *)
Theorem parseRepo_round_trip (o n : string) :
  o <> "" -> n <> "" -> has_slash o = false -> has_slash n = false ->
  Index.parseRepo (o +:+ "/" +:+ n) = Return (o, n).
Proof.
  intros Hoe Hne Ho Hn. apply parseRepo_segments; try assumption.
  - change (o +:+ "/" +:+ n) with (o +:+ String JS.slash n).
    rewrite (split_app_slash _ _ Ho). reflexivity.
  - change (o +:+ "/" +:+ n) with (o +:+ String JS.slash n).
    rewrite (split_app_slash _ _ Ho), (split_no_slash _ Hn). reflexivity.
Qed.

Lemma parseRepo_round_trip_witness :
  Index.parseRepo ("acme" +:+ "/" +:+ "web") = Return ("acme", "web").
Proof.
  apply parseRepo_round_trip; [discriminate|discriminate|reflexivity..].
Defined.

(** X3. The prologue of a handler hands an owner and a name to the
    request exactly when the permission check, the repository check and
    [parseRepo] all pass; a permission failure is reported before a
    repository failure, and a repository failure before a format
    failure. *)
Theorem handlerPrologue_outcome
    (config : Config) (level : PermissionLevel.t) (repo : string) :
  (forall o n,
     Index.handlerPrologue config level repo = Return (o, n)
     <-> Perm.checkPermission config level = Return tt
         /\ Perm.checkRepoAccess config repo = Return tt
         /\ Index.parseRepo repo = Return (o, n))
  /\ (forall e, Perm.checkPermission config level = Throw e ->
                Index.handlerPrologue config level repo = Throw e)
  /\ (forall e, Perm.checkPermission config level = Return tt ->
                Perm.checkRepoAccess config repo = Throw e ->
                Index.handlerPrologue config level repo = Throw e)
  /\ (Perm.checkPermission config level = Return tt ->
      Perm.checkRepoAccess config repo = Return tt ->
      Index.handlerPrologue config level repo = Index.parseRepo repo).
Proof.
  unfold Index.handlerPrologue.
  destruct (Perm.checkPermission config level) as [[]|e1];
    destruct (Perm.checkRepoAccess config repo) as [[]|e2]; simpl.
  all: repeat split; try congruence; try tauto.
  all: try (intros (? & ? & ?); congruence).
  all: try (intros (? & ?); congruence).
Qed.

Lemma handlerPrologue_outcome_witness :
  Index.handlerPrologue carved_config PermissionLevel.trigger "acme/secrets"
  = Throw (Perm.permissionDenied PermissionLevel.trigger).
Proof.
  exact (proj1 (proj2 (handlerPrologue_outcome
                         carved_config PermissionLevel.trigger
                         "acme/secrets"))
           (Perm.permissionDenied PermissionLevel.trigger) eq_refl).
Defined.

(** X4. Bypass switches off the two access checks but not the validation
    of the resource: with bypass set, the prologue of every handler is
    [parseRepo] alone. *)
Theorem bypass_keeps_format_check
    (config : Config) (level : PermissionLevel.t) (repo : string) :
  bypass_permissions config = Some true ->
  Index.handlerPrologue config level repo = Index.parseRepo repo.
Proof.
  intros Hb. unfold Index.handlerPrologue, Perm.checkPermission,
    Perm.checkRepoAccess. rewrite Hb. reflexivity.
Qed.

Lemma bypass_keeps_format_check_witness :
  Index.handlerPrologue
    (mkConfig (permissions acme_config) (Some true))
    PermissionLevel.admin "no-slash-here"
  = Throw (Index.invalidRepoFormat "no-slash-here").
Proof.
  exact (bypass_keeps_format_check
           (mkConfig (permissions acme_config) (Some true))
           PermissionLevel.admin "no-slash-here" eq_refl).
Defined.

End Resources.

(** ** Pattern lists *)

Section Patterns.

Lemma matchesAny_false (repo : string) (patterns : list string) :
  Perm.matchesAny repo patterns = false
  <-> forall p, p ∈ patterns -> Perm.matches repo p = false.
Proof.
  split.
  - intros H p Hin. destruct (Perm.matches repo p) eqn:Hm; [|reflexivity].
    assert (Perm.matchesAny repo patterns = true) as Ht
      by (apply matchesAny_true; eauto).
    congruence.
  - intros H. destruct (Perm.matchesAny repo patterns) eqn:Hm; [|reflexivity].
    apply matchesAny_true in Hm as (p & Hin & Hp).
    rewrite (H p Hin) in Hp. discriminate.
Qed.

Lemma matchesAny_app (repo : string) (ps qs : list string) :
  Perm.matchesAny repo (ps ++ qs)
  = Perm.matchesAny repo ps || Perm.matchesAny repo qs.
Proof.
  unfold Perm.matchesAny.
  induction ps as [|p ps IH]; simpl; [reflexivity|].
  destruct (Perm.matchesPattern _ _ _ p); [reflexivity|exact IH].
Qed.

Lemma matchesAny_perm (repo : string) (ps qs : list string) :
  ps ≡ₚ qs -> Perm.matchesAny repo ps = Perm.matchesAny repo qs.
Proof.
  intros Hperm. apply eq_true_iff_eq. rewrite !matchesAny_true.
  split; intros (p & Hin & Hm); exists p; (split; [|exact Hm]).
  - rewrite <- Hperm. exact Hin.
  - rewrite Hperm. exact Hin.
Qed.

(** The decision of [checkRepoAccess] without bypass, as a formula. *)
Lemma checkRepoAccess_listed (f : Permissions) (wl bl : list string)
    (repo : string) :
  Perm.checkRepoAccess (listed_config f wl bl) repo
  = if Perm.matchesAny repo bl then Throw (Perm.blacklisted repo)
    else if bool_decide (wl = []) then Return tt
    else if Perm.matchesAny repo wl then Return tt
    else Throw (Perm.notInWhitelist repo).
Proof.
  unfold Perm.checkRepoAccess, listed_config.
  cbn [bypass_permissions JS.truthy_bool permissions whitelist_repos
       blacklist_repos].
  assert ((0 <? length bl)%nat && Perm.matchesAny repo bl
          = Perm.matchesAny repo bl) as ->
    by (destruct bl; reflexivity).
  assert ((length wl =? 0)%nat = bool_decide (wl = [])) as ->
    by (destruct wl; reflexivity).
  destruct (Perm.matchesAny repo bl); [reflexivity|].
  destruct (bool_decide (wl = [])); [reflexivity|].
  destruct (Perm.matchesAny repo wl); reflexivity.
Qed.

(** X5. The order of the patterns in the lists does not matter: lists
    that are permutations of one another give the same decision, and a
    list made of two parts matches when one of the parts does. *)
Theorem pattern_order_irrelevant
    (f : Permissions) (wl wl' bl bl' : list string) (repo : string) :
  wl ≡ₚ wl' -> bl ≡ₚ bl' ->
  Perm.checkRepoAccess (listed_config f wl bl) repo
  = Perm.checkRepoAccess (listed_config f wl' bl') repo
  /\ Perm.matchesAny repo wl = Perm.matchesAny repo wl'
  /\ Perm.matchesAny repo (wl ++ bl)
     = Perm.matchesAny repo wl || Perm.matchesAny repo bl.
Proof.
  intros Hw Hb.
  split; [|split; [apply matchesAny_perm, Hw|apply matchesAny_app]].
  rewrite !checkRepoAccess_listed.
  rewrite (matchesAny_perm repo bl bl' Hb), (matchesAny_perm repo wl wl' Hw).
  destruct (Perm.matchesAny repo bl'); [reflexivity|].
  destruct wl as [|w l], wl' as [|w' l']; try reflexivity.
  - apply Permutation_nil_l in Hw. discriminate.
  - symmetry in Hw. apply Permutation_nil_l in Hw. discriminate.
Qed.

Lemma pattern_order_irrelevant_witness :
  Perm.checkRepoAccess
    (listed_config DEFAULT_PERMISSIONS ["acme/*"; "*/web"] ["acme/secrets"])
    "other/web"
  = Perm.checkRepoAccess
      (listed_config DEFAULT_PERMISSIONS ["*/web"; "acme/*"]
                     ["acme/secrets"])
      "other/web".
Proof.
  exact (proj1 (pattern_order_irrelevant
                  DEFAULT_PERMISSIONS ["acme/*"; "*/web"] ["*/web"; "acme/*"]
                  ["acme/secrets"] ["acme/secrets"] "other/web"
                  (perm_swap _ _ _) (Permutation_refl _))).
Defined.

(** X6. There is no partial wildcard: a pattern whose first two segments
    are both something else than [*] matches the resource equal to it and
    no other, so [org/secrets-*] does not cover [org/secrets-prod]. *)
Theorem no_partial_wildcard (repo pattern : string) :
  JS.split pattern !! 0%nat <> Some "*" ->
  JS.split pattern !! 1%nat <> Some "*" ->
  (Perm.matches repo pattern = true <-> pattern = repo).
Proof.
  intros H0 H1. unfold Perm.matches. rewrite matchesPattern_true.
  split; [|tauto]. intros [H|[[H _]|[H _]]]; [exact H|contradiction..].
Qed.

Lemma no_partial_wildcard_witness :
  Perm.matches "org/secrets-prod" "org/secrets-*" = false.
Proof.
  destruct (Perm.matches "org/secrets-prod" "org/secrets-*") eqn:E;
    [|reflexivity].
  apply (no_partial_wildcard "org/secrets-prod" "org/secrets-*") in E;
    discriminate.
Defined.

(** X7. The pattern [*/*] is no catch-all: it matches only a resource
    whose owner or name is itself [*]. A whitelist that holds only [*/*]
    therefore denies every ordinary repository. *)
Theorem star_star_is_no_catch_all (f : Permissions) (repo : string) :
  (Perm.matches repo "*/*" = true
   <-> JS.split repo !! 0%nat = Some "*"
       \/ JS.split repo !! 1%nat = Some "*")
  /\ (JS.split repo !! 0%nat <> Some "*" ->
      JS.split repo !! 1%nat <> Some "*" ->
      Perm.checkRepoAccess (listed_config f ["*/*"] []) repo
      = Throw (Perm.notInWhitelist repo)).
Proof.
  assert (Perm.matches repo "*/*" = true
          <-> JS.split repo !! 0%nat = Some "*"
              \/ JS.split repo !! 1%nat = Some "*") as Hiff.
  { unfold Perm.matches. rewrite matchesPattern_true.
    change (JS.split "*/*" !! 0%nat) with (Some "*").
    change (JS.split "*/*" !! 1%nat) with (Some "*").
    split.
    - intros [<-|[[_ H]|[_ H]]]; [left; reflexivity|left|right]; congruence.
    - intros [H|H]; [right; left|right; right]; split; congruence. }
  split; [exact Hiff|]. intros H0 H1.
  rewrite checkRepoAccess_listed.
  change (Perm.matchesAny repo []) with false. simpl.
  destruct (Perm.matchesAny repo ["*/*"]) eqn:E; [|reflexivity].
  apply matchesAny_true in E as (p & Hin & Hm).
  apply list_elem_of_singleton in Hin. subst p.
  apply Hiff in Hm. tauto.
Qed.

Lemma star_star_is_no_catch_all_witness :
  Perm.checkRepoAccess (listed_config DEFAULT_PERMISSIONS ["*/*"] [])
                       "acme/web"
  = Throw (Perm.notInWhitelist "acme/web").
Proof.
  apply (proj2 (star_star_is_no_catch_all DEFAULT_PERMISSIONS "acme/web"));
    discriminate.
Defined.

(** X8. A resource written out in the blacklist is denied as blacklisted
    whatever the whitelist holds, and a resource written out in the
    whitelist is allowed when no blacklist pattern matches it; this holds
    for every string, well-formed or not. *)
Theorem listed_verbatim
    (f : Permissions) (wl bl : list string) (repo : string) :
  (repo ∈ bl ->
   Perm.checkRepoAccess (listed_config f wl bl) repo
   = Throw (Perm.blacklisted repo))
  /\ (repo ∈ wl -> Perm.matchesAny repo bl = false ->
      Perm.checkRepoAccess (listed_config f wl bl) repo = Return tt).
Proof.
  assert (forall l, repo ∈ l -> Perm.matchesAny repo l = true) as Hself.
  { intros l Hin. apply matchesAny_true. exists repo. split; [exact Hin|].
    unfold Perm.matches, Perm.matchesPattern. rewrite String.eqb_refl.
    reflexivity. }
  rewrite checkRepoAccess_listed. split.
  - intros Hin. rewrite (Hself bl Hin). reflexivity.
  - intros Hin Hbl. rewrite Hbl, (Hself wl Hin).
    destruct (bool_decide (wl = [])); reflexivity.
Qed.

Lemma listed_verbatim_witness :
  Perm.checkRepoAccess
    (listed_config DEFAULT_PERMISSIONS ["*/*"] ["no-slash-here"])
    "no-slash-here"
  = Throw (Perm.blacklisted "no-slash-here").
Proof.
  apply (proj1 (listed_verbatim DEFAULT_PERMISSIONS ["*/*"]
                                ["no-slash-here"] "no-slash-here")).
  apply list_elem_of_singleton. reflexivity.
Defined.

(** X9. Adding patterns to the blacklist never grants access, and adding
    patterns to a whitelist that is not empty never takes access away.
    (Adding the first pattern to an empty whitelist can take it away.) *)
Theorem lists_monotone
    (f : Permissions) (wl bl extra : list string) (repo : string) :
  (Perm.checkRepoAccess (listed_config f wl (bl ++ extra)) repo = Return tt ->
   Perm.checkRepoAccess (listed_config f wl bl) repo = Return tt)
  /\ (wl <> [] ->
      Perm.checkRepoAccess (listed_config f wl bl) repo = Return tt ->
      Perm.checkRepoAccess (listed_config f (wl ++ extra) bl) repo
      = Return tt).
Proof.
  rewrite !checkRepoAccess_listed, !matchesAny_app. split.
  - destruct (Perm.matchesAny repo bl); simpl; [discriminate|].
    destruct (Perm.matchesAny repo extra); [discriminate|tauto].
  - intros Hne. destruct (Perm.matchesAny repo bl); [tauto|].
    rewrite bool_decide_eq_false_2 by exact Hne.
    rewrite bool_decide_eq_false_2
      by (intros H; apply app_eq_nil in H as [? _]; contradiction).
    destruct (Perm.matchesAny repo wl); simpl; [tauto|discriminate].
Qed.

Lemma lists_monotone_witness :
  Perm.checkRepoAccess
    (listed_config DEFAULT_PERMISSIONS ["acme/*"; "other/*"] []) "acme/web"
  = Return tt.
Proof.
  exact (proj2 (lists_monotone DEFAULT_PERMISSIONS ["acme/*"] []
                               ["other/*"] "acme/web")
           ltac:(discriminate) eq_refl).
Defined.

End Patterns.

(** ** More on the circuit breaker *)

Section BreakerRuns.

Import Utils.

Lemma run_cons (c : call) (cs : list call) (b : CircuitBreaker) :
  run (c :: cs) b = run cs (Utils.step c b).
Proof. reflexivity. Qed.

(** Failures that follow one another within the reset window add up. *)
Lemma run_failures_within (ts : list Z) : forall b : CircuitBreaker,
  gaps_within (resetTimeMs b) (lastFailure b) ts ->
  failures (run (map Failure ts) b) = failures b + Z.of_nat (length ts)
  /\ isOpen (run (map Failure ts) b)
     = isOpen b
       || (negb (bool_decide (ts = []))
           && (threshold b <=? failures b + Z.of_nat (length ts))).
Proof.
  induction ts as [|t rest IH]; intros b Hg.
  - simpl. split; [lia|]. rewrite orb_false_r. reflexivity.
  - destruct Hg as [Ht Hrest].
    destruct (failure_fields t b) as (F & L & O & T & R).
    assert (failures (failure t b) = failures b + 1) as F'.
    { rewrite F. destruct (Z.ltb_spec (resetTimeMs b) (t - lastFailure b));
        [lia|reflexivity]. }
    cbn [map]. rewrite run_cons. cbn [Utils.step].
    destruct (IH (failure t b)) as [IHf IHo];
      [rewrite R, L; exact Hrest|].
    rewrite IHf, IHo, F', O, F', T.
    split; [cbn [length]; lia|].
    rewrite (bool_decide_eq_false_2 (t :: rest = [])) by discriminate.
    cbn [negb andb length].
    replace (failures b + 1 + Z.of_nat (length rest))
      with (failures b + Z.of_nat (S (length rest))) by lia.
    destruct rest as [|t' rest'].
    + cbn [length bool_decide]. simpl negb. simpl andb.
      rewrite orb_false_r. replace (failures b + Z.of_nat 1)
        with (failures b + 1) by lia.
      apply orb_comm.
    + rewrite (bool_decide_eq_false_2 (t' :: rest' = [])) by discriminate.
      cbn [negb andb].
      destruct (Z.leb_spec (threshold b) (failures b + 1));
        destruct (Z.leb_spec (threshold b)
                    (failures b + Z.of_nat (S (length (t' :: rest')))));
        destruct (isOpen b); try reflexivity; cbn [length] in *; lia.
Qed.

(** X10. From a fresh breaker, failures that follow one another within
    the reset window are all counted, and the breaker is open after them
    exactly when their number has reached the threshold. *)
Theorem consecutive_failures_trip
    (th rt cd : option Z) (t1 : Z) (rest : list Z) :
  gaps_within (default 60000 rt) t1 rest ->
  failures (run (map Failure (t1 :: rest)) (new_CircuitBreaker th rt cd))
  = Z.of_nat (length (t1 :: rest))
  /\ isOpen (run (map Failure (t1 :: rest)) (new_CircuitBreaker th rt cd))
     = (default 3 th <=? Z.of_nat (length (t1 :: rest))).
Proof.
  intros Hg. cbn [map]. rewrite run_cons. cbn [Utils.step].
  set (b0 := new_CircuitBreaker th rt cd).
  destruct (failure_fields t1 b0) as (F & L & O & T & R).
  assert (failures (failure t1 b0) = 1) as F'
    by (rewrite F; change (failures b0) with 0;
        destruct (_ <? _); reflexivity).
  change (threshold b0) with (default 3 th) in *.
  change (resetTimeMs b0) with (default 60000 rt) in R.
  change (isOpen b0) with false in O. rewrite orb_false_r, F' in O.
  destruct (run_failures_within rest (failure t1 b0)) as [Hf Ho];
    [rewrite R, L; exact Hg|].
  rewrite Hf, Ho, F', O, T. split; [cbn [length]; lia|].
  destruct rest as [|t' rest'].
  - change (negb (bool_decide (@nil Z = []))) with false.
    cbn [andb]. rewrite orb_false_r. reflexivity.
  - rewrite (bool_decide_eq_false_2 (t' :: rest' = [])) by discriminate.
    cbn [negb andb].
    replace (1 + Z.of_nat (length (t' :: rest')))
      with (Z.of_nat (length (t1 :: t' :: rest'))) by (cbn [length]; lia).
    destruct (Z.leb_spec (default 3 th) 1);
      destruct (Z.leb_spec (default 3 th)
                  (Z.of_nat (length (t1 :: t' :: rest'))));
      try reflexivity; cbn [length] in *; lia.
Qed.

Lemma consecutive_failures_trip_witness :
  isOpen (run (map Failure [1000; 30000; 90000; 150000; 210000])
              (new_CircuitBreaker (Some 5) None None))
  = true.
Proof.
  exact (proj2 (consecutive_failures_trip
                  (Some 5) None None 1000 [30000; 90000; 150000; 210000]
                  ltac:(simpl; lia))).
Defined.

(** X11. [check()] returns normally exactly when the breaker is closed
    after the call; a second [check()] at the same time does and returns
    the same as the first; no [check()] touches [lastFailure], and a
    closed breaker is left as it is. *)
Theorem check_settles (b : CircuitBreaker) (now : Z) :
  (fst (check now b) = Return tt <-> isOpen (snd (check now b)) = false)
  /\ check now (snd (check now b)) = check now b
  /\ lastFailure (snd (check now b)) = lastFailure b
  /\ (isOpen b = false -> check now b = (Return tt, b)).
Proof.
  unfold check. destruct (isOpen b) eqn:Ho; simpl.
  - destruct (Z.ltb_spec (cooldownMs b) (now - lastFailure b)); simpl.
    + repeat split; try reflexivity. discriminate.
    + rewrite Ho. simpl.
      destruct (Z.ltb_spec (cooldownMs b) (now - lastFailure b)); [lia|].
      repeat split; try discriminate; try reflexivity.
  - rewrite Ho. simpl. repeat split; reflexivity.
Qed.

Lemma check_settles_witness :
  isOpen fresh_breaker = false
  /\ check 5000 fresh_breaker = (Return tt, fresh_breaker).
Proof.
  split; [reflexivity|].
  exact (proj2 (proj2 (proj2 (check_settles fresh_breaker 5000))) eq_refl).
Defined.

(** X12. While the breaker is open, a [failure()] keeps it open and
    restarts the cooldown from the time of that failure, and a
    [success()] keeps it open as well. *)
Theorem failure_while_open_restarts_cooldown
    (b : CircuitBreaker) (t now : Z) :
  isOpen b = true ->
  isOpen (failure t b) = true
  /\ lastFailure (failure t b) = t
  /\ (now - t <= cooldownMs b ->
      check now (failure t b)
      = (Throw (circuitOpen (failure t b) now), failure t b))
  /\ isOpen (success b) = true.
Proof.
  intros Ho. destruct (failure_fields t b) as (F & L & O & T & R).
  assert (isOpen (failure t b) = true) as O'
    by (rewrite O, Ho; apply orb_true_r).
  assert (cooldownMs (failure t b) = cooldownMs b) as C
    by (destruct (step_readonly (Failure t) b) as (_ & _ & E); exact E).
  split; [exact O'|]. split; [exact L|]. split.
  - intros Hcd. unfold check. rewrite O', C, L. simpl.
    destruct (Z.ltb_spec (cooldownMs b) (now - t)); [lia|reflexivity].
  - unfold success. destruct (0 <? failures b); exact Ho.
Qed.

Lemma failure_while_open_restarts_cooldown_witness :
  isOpen tripped_breaker = true
  /\ JS.throws (fst (check 400000 (failure 200000 tripped_breaker))) = true.
Proof.
  split; [reflexivity|].
  rewrite (proj1 (proj2 (proj2 (failure_while_open_restarts_cooldown
                                  tripped_breaker 200000 400000 eq_refl)))
             ltac:(vm_compute; discriminate)).
  reflexivity.
Defined.

(** X13. A failure that comes later than the reset window after the last
    one starts a new count at one: it opens the breaker only if the
    threshold is one or less, and otherwise leaves the breaker as open or
    closed as it was. *)
Theorem stale_failures_forgotten (b : CircuitBreaker) (t : Z) :
  resetTimeMs b < t - lastFailure b ->
  failures (failure t b) = 1
  /\ (1 < threshold b -> isOpen (failure t b) = isOpen b)
  /\ (threshold b <= 1 -> isOpen (failure t b) = true).
Proof.
  intros Hs. destruct (failure_fields t b) as (F & L & O & T & R).
  assert (failures (failure t b) = 1) as F'.
  { rewrite F. destruct (Z.ltb_spec (resetTimeMs b) (t - lastFailure b));
      [reflexivity|lia]. }
  split; [exact F'|]. rewrite O, F'. split; intros Hth.
  - destruct (Z.leb_spec (threshold b) 1); [lia|reflexivity].
  - destruct (Z.leb_spec (threshold b) 1); [reflexivity|lia].
Qed.

Lemma stale_failures_forgotten_witness :
  failures (failure 100000 (failure 2000 (failure 1000 fresh_breaker))) = 1
  /\ isOpen (failure 100000 (failure 2000 (failure 1000 fresh_breaker)))
     = false.
Proof.
  destruct (stale_failures_forgotten
              (failure 2000 (failure 1000 fresh_breaker)) 100000
              ltac:(vm_compute; reflexivity)) as (Hf & Ho & _).
  split; [exact Hf|]. rewrite Ho; [reflexivity|vm_compute; reflexivity].
Defined.

End BreakerRuns.

(** ** More on the quota headers *)

Section Numbers.

Import Utils.

Lemma pretty_N_go_app (x : N) : forall s rest : string,
  pretty_N_go x s +:+ rest = pretty_N_go x (s +:+ rest).
Proof.
  induction x as [x IH] using (well_founded_induction N.lt_wf_0).
  intros s rest. destruct (decide (x = 0%N)) as [->|Hx].
  - rewrite !pretty_N_go_0. reflexivity.
  - rewrite (pretty_N_go_step x s), (pretty_N_go_step x (s +:+ rest)) by lia.
    rewrite IH by (apply N.div_lt; lia). reflexivity.
Qed.

Lemma digits_prefix_head (rest : string) :
  head_not_digit rest -> JS.digits_prefix rest = [].
Proof. destruct rest as [|c r]; simpl; [reflexivity|]. intros ->. reflexivity. Qed.

(** The digits read from a printed number that is followed by something
    else than a digit. *)
Lemma digits_pretty_N_app (n : N) (rest : string) :
  head_not_digit rest ->
  JS.digits_prefix (pretty n +:+ rest) <> []
  /\ JS.mathInt (JS.digits_prefix (pretty n +:+ rest)) = Z.of_N n
  /\ exists d tl, (d < 10)%N
                  /\ pretty n +:+ rest = String (pretty_N_char d) tl.
Proof.
  intros Hrest. unfold pretty, pretty_N.
  destruct (decide (n = 0%N)) as [->|Hn].
  - change ("0" +:+ rest) with (String "0" rest). simpl JS.digits_prefix.
    rewrite (digits_prefix_head _ Hrest).
    split; [discriminate|]. split; [reflexivity|].
    exists 0%N, rest. split; [lia|reflexivity].
  - rewrite pretty_N_go_app. change ("" +:+ rest) with rest.
    destruct (pretty_N_go_head n rest ltac:(lia)) as (d & tl & Hd & E).
    split; [|split].
    + rewrite E. simpl. rewrite (digit_value_char d Hd). discriminate.
    + unfold JS.mathInt. rewrite digits_pretty_N_go.
      rewrite (digits_prefix_head _ Hrest). reflexivity.
    + exists d, tl. split; [exact Hd|exact E].
Qed.

Lemma parseInt_pretty_N_app (n : N) (rest : string) :
  head_not_digit rest -> JS.parseInt (pretty n +:+ rest) = JS.Num (Z.of_N n).
Proof.
  intros Hrest.
  destruct (digits_pretty_N_app n rest Hrest) as (_ & Hv & d & tl & Hd & E).
  destruct (digit_char_plain d Hd) as (Hw & Hm & Hp).
  rewrite E in *.
  rewrite (parseInt_digits _ _ _ Hw Hm Hp (digit_value_char d Hd)), Hv.
  reflexivity.
Qed.

(** In the model, [parseInt] reads a number printed in decimal back,
    also when anything that does not start with a digit comes after
    it. *)
Lemma parseInt_decimal_prefix (z : Z) (rest : string) :
  head_not_digit rest -> JS.parseInt (pretty z +:+ rest) = JS.Num z.
Proof.
  intros Hrest. destruct z as [|p|p].
  - apply (parseInt_pretty_N_app 0 rest Hrest).
  - apply (parseInt_pretty_N_app (N.pos p) rest Hrest).
  - change (pretty (Z.neg p) +:+ rest)
      with (String "-" (pretty (N.pos p) +:+ rest)).
    rewrite parseInt_minus.
    destruct (digits_pretty_N_app (N.pos p) rest Hrest) as (Hne & Hv & _).
    destruct (JS.digits_prefix (pretty (N.pos p) +:+ rest));
      [contradiction|]. rewrite Hv. reflexivity.
Qed.

Lemma trim_start_white (pre s : string) :
  all_white pre -> JS.trim_start (pre +:+ s) = JS.trim_start s.
Proof.
  induction pre as [|c pre IH]; intros Hw; [reflexivity|].
  destruct Hw as [Hc Hpre]. rewrite string_app_cons.
  cbn [JS.trim_start]. rewrite Hc. apply IH, Hpre.
Qed.

Lemma parseInt_skips_white (pre s : string) :
  all_white pre -> JS.parseInt (pre +:+ s) = JS.parseInt s.
Proof.
  intros Hw. unfold JS.parseInt. rewrite (trim_start_white _ _ Hw).
  reflexivity.
Qed.

Lemma padded_nonempty (pre rest : string) (z : Z) :
  pre +:+ pretty z +:+ rest <> "".
Proof.
  pose proof (pretty_Z_nonempty z) as Hz.
  destruct pre; [|discriminate]. destruct (pretty z); [contradiction|].
  discriminate.
Qed.

(** The snapshot for three headers that are not empty. *)
Lemma parseRateLimitHeaders_nonempty
    (headers : gmap string string) (rs ls ts : string) :
  headers !! "x-ratelimit-remaining" = Some rs ->
  headers !! "x-ratelimit-limit" = Some ls ->
  headers !! "x-ratelimit-reset" = Some ts ->
  rs <> "" -> ls <> "" -> ts <> "" ->
  parseRateLimitHeaders headers
  = Some {| remaining := JS.parseInt rs;
            limit := JS.parseInt ls;
            reset_at := JS.new_Date (JS.times (JS.parseInt ts) 1000) |}.
Proof.
  intros Hr Hl Ht Hrs Hls Hts.
  unfold parseRateLimitHeaders. rewrite Hr, Hl, Ht.
  destruct rs; [contradiction|]. destruct ls; [contradiction|].
  destruct ts; [contradiction|]. reflexivity.
Qed.

(** X14. The quota headers are read through padding: when each header
    holds an integer in decimal, with ASCII white space before it and
    anything that does not start with a digit after it, as in
    [5000, 5000] or [60;w=60], the snapshot holds these integers and the
    millisecond timestamp of the reset time. The integers are up to 2^53
    in magnitude, where JavaScript holds them without rounding, and the
    reset time lies within the range of dates. *)
Theorem quota_headers_read_through_padding
    (headers : gmap string string) (rn ln tn : Z)
    (pre1 pre2 pre3 rest1 rest2 rest3 : string) :
  all_white pre1 -> all_white pre2 -> all_white pre3 ->
  head_not_digit rest1 -> head_not_digit rest2 -> head_not_digit rest3 ->
  headers !! "x-ratelimit-remaining" = Some (pre1 +:+ pretty rn +:+ rest1) ->
  headers !! "x-ratelimit-limit" = Some (pre2 +:+ pretty ln +:+ rest2) ->
  headers !! "x-ratelimit-reset" = Some (pre3 +:+ pretty tn +:+ rest3) ->
  Z.abs rn <= 9007199254740992 -> Z.abs ln <= 9007199254740992 ->
  Z.abs (tn * 1000) <= 8640000000000000 ->
  parseRateLimitHeaders headers
  = Some {| remaining := JS.Num rn;
            limit := JS.Num ln;
            reset_at := JS.mkDate (JS.Num (tn * 1000)) |}.
Proof.
  intros Hw1 Hw2 Hw3 Hd1 Hd2 Hd3 Hr Hl Ht _ _ Hrange.
  rewrite (parseRateLimitHeaders_nonempty _ _ _ _ Hr Hl Ht)
    by apply padded_nonempty.
  rewrite (parseInt_skips_white _ _ Hw1), (parseInt_skips_white _ _ Hw2),
    (parseInt_skips_white _ _ Hw3).
  rewrite (parseInt_decimal_prefix _ _ Hd1), (parseInt_decimal_prefix _ _ Hd2),
    (parseInt_decimal_prefix _ _ Hd3).
  simpl JS.times. unfold JS.new_Date.
  destruct (Z.ltb_spec 8640000000000000 (Z.abs (tn * 1000)));
    [lia|reflexivity].
Qed.

Lemma quota_headers_read_through_padding_witness :
  parseRateLimitHeaders (quota_headers " 4892" "5000, 5000" "1700000000")
  = Some {| remaining := JS.Num 4892;
            limit := JS.Num 5000;
            reset_at := JS.mkDate (JS.Num 1700000000000) |}.
Proof.
  refine (quota_headers_read_through_padding
            (quota_headers " 4892" "5000, 5000" "1700000000")
            4892 5000 1700000000 " " "" "" "" ", 5000" ""
            _ _ _ _ _ _ _ _ _ _ _ _);
    try exact I; try (split; [reflexivity|exact I]);
    vm_compute; first [reflexivity|discriminate].
Defined.

(** X15. A remaining header that is present but starts with an ASCII
    character that is neither white space, a sign nor a digit is read as
    [NaN]: with the other two headers not empty the parser still returns
    a snapshot, with [NaN] as remaining. *)
Theorem non_numeric_header_reads_NaN
    (headers : gmap string string) (c : ascii) (rest l t : string) :
  (nat_of_ascii c < 128)%nat ->
  JS.is_white c = false -> Ascii.eqb c "-" = false ->
  Ascii.eqb c "+" = false -> JS.digit_value c = None ->
  headers !! "x-ratelimit-remaining" = Some (String c rest) ->
  headers !! "x-ratelimit-limit" = Some l -> l <> "" ->
  headers !! "x-ratelimit-reset" = Some t -> t <> "" ->
  exists snapshot,
    parseRateLimitHeaders headers = Some snapshot
    /\ remaining snapshot = JS.NaN.
Proof.
  intros _ Hw Hm Hp Hd Hr Hl Hle Ht Hte.
  assert (JS.parseInt (String c rest) = JS.NaN) as Hnan.
  { unfold JS.parseInt. simpl JS.trim_start. rewrite Hw, Hm, Hp.
    simpl. rewrite Hd. reflexivity. }
  rewrite (parseRateLimitHeaders_nonempty _ _ _ _ Hr Hl Ht)
    by (assumption || discriminate).
  eexists. split; [reflexivity|]. exact Hnan.
Qed.

Lemma non_numeric_header_reads_NaN_witness :
  exists snapshot,
    parseRateLimitHeaders (quota_headers "unlimited" "5000" "1700000000")
    = Some snapshot
    /\ remaining snapshot = JS.NaN.
Proof.
  refine (non_numeric_header_reads_NaN
            (quota_headers "unlimited" "5000" "1700000000")
            "u" "nlimited" "5000" "1700000000" _ _ _ _ _ _ _ _ _ _);
    try discriminate; try (vm_compute; reflexivity).
  apply Nat.ltb_lt. vm_compute. reflexivity.
Defined.

End Numbers.

(** ** Log truncation *)

Section Logs.

Lemma length_split_on_pos (sep : ascii) (s : string) :
  (1 <= length (JSLib.split_on sep s))%nat.
Proof.
  pose proof (split_on_nonempty sep s).
  destruct (JSLib.split_on sep s); [contradiction|simpl; lia].
Qed.

Lemma slice_from_tail {A} (n : Z) (l : list A) :
  0 < n -> JSLib.slice_from (- n) l = drop (length l - Z.to_nat n) l.
Proof.
  intros Hn. unfold JSLib.slice_from.
  destruct (Z.ltb_spec (- n) 0); [|lia]. f_equal. lia.
Qed.

Lemma slice_from_head {A} (n : Z) (l : list A) :
  n <= 0 -> JSLib.slice_from (- n) l = drop (Z.to_nat (- n)) l.
Proof.
  intros Hn. unfold JSLib.slice_from.
  destruct (Z.ltb_spec (- n) 0); [lia|].
  destruct (Z.le_gt_cases (- n) (Z.of_nat (length l))).
  - f_equal. lia.
  - rewrite !drop_ge by lia. reflexivity.
Qed.

Lemma truncateLogs_lines (logs : string) (maxLines : Z) :
  1 <= maxLines ->
  JSLib.split_on JSLib.newline (Haiku.truncateLogs logs maxLines)
  = drop (length (JSLib.split_on JSLib.newline logs) - Z.to_nat maxLines)
         (JSLib.split_on JSLib.newline logs).
Proof.
  intros Hn. unfold Haiku.truncateLogs.
  pose proof (length_split_on_pos JSLib.newline logs) as Hpos.
  destruct (Z.leb_spec
              (Z.of_nat (length (JSLib.split_on JSLib.newline logs)))
              maxLines) as [Hle|Hgt].
  - replace (length (JSLib.split_on JSLib.newline logs)
             - Z.to_nat maxLines)%nat with 0%nat by lia.
    reflexivity.
  - rewrite slice_from_tail by lia. apply split_on_join.
    + intros E. apply (f_equal length) in E.
      rewrite length_drop in E. simpl in E. lia.
    + apply Forall_drop, split_on_segments.
Qed.

Lemma truncateLogs_keeps_last_lines_len (logs : string) (maxLines : Z) :
  1 <= maxLines ->
  Z.of_nat (length (JSLib.split_on JSLib.newline
                      (Haiku.truncateLogs logs maxLines)))
  <= maxLines.
Proof. intros Hn. rewrite truncateLogs_lines, length_drop by exact Hn. lia. Qed.

(** X16. With a bound of at least one line, [truncateLogs] keeps the last
    [maxLines] lines of the log and all of them when there are fewer; the
    result has at most [maxLines] lines, and truncating it again changes
    nothing. *)
Theorem truncateLogs_keeps_last_lines (logs : string) (maxLines : Z) :
  1 <= maxLines ->
  JSLib.split_on JSLib.newline (Haiku.truncateLogs logs maxLines)
  = drop (length (JSLib.split_on JSLib.newline logs) - Z.to_nat maxLines)
         (JSLib.split_on JSLib.newline logs)
  /\ Z.of_nat (length (JSLib.split_on JSLib.newline
                                      (Haiku.truncateLogs logs maxLines)))
     <= maxLines
  /\ Haiku.truncateLogs (Haiku.truncateLogs logs maxLines) maxLines
     = Haiku.truncateLogs logs maxLines.
Proof.
  intros Hn.
  pose proof (truncateLogs_lines logs maxLines Hn) as Hlines.
  pose proof (truncateLogs_keeps_last_lines_len logs maxLines Hn) as Hlen.
  split; [exact Hlines|]. split; [exact Hlen|].
  unfold Haiku.truncateLogs at 1.
  destruct (Z.leb_spec
              (Z.of_nat (length (JSLib.split_on JSLib.newline
                                   (Haiku.truncateLogs logs maxLines))))
              maxLines); [reflexivity|lia].
Qed.

Lemma truncateLogs_keeps_last_lines_witness :
  JSLib.split_on JSLib.newline
    (Haiku.truncateLogs
       ("one" +:+ String JSLib.newline ("two" +:+ String JSLib.newline "three"))
       2)
  = ["two"; "three"].
Proof.
  exact (proj1 (truncateLogs_keeps_last_lines
                  ("one" +:+ String JSLib.newline
                     ("two" +:+ String JSLib.newline "three"))
                  2 ltac:(lia))).
Defined.

(** X17. Whatever the bound, what [truncateLogs] returns is a suffix of
    the log: it adds and reorders nothing. *)
Theorem truncateLogs_suffix (logs : string) (maxLines : Z) :
  exists dropped, logs = dropped +:+ Haiku.truncateLogs logs maxLines.
Proof.
  unfold Haiku.truncateLogs.
  destruct (Z.of_nat (length (JSLib.split_on JSLib.newline logs))
            <=? maxLines); [exists ""; reflexivity|].
  unfold JSLib.slice_from.
  match goal with
  | |- context [drop ?k _] =>
      destruct (join_drop_suffix (String JSLib.newline "") k
                  (JSLib.split_on JSLib.newline logs)) as [pre Hpre]
  end.
  exists pre. rewrite <- Hpre. symmetry. apply join_split_on.
Qed.

(** X18. A bound of zero keeps the whole log, and a negative bound [-k]
    drops the first [k] lines and keeps the rest: nothing at all when
    the log has [k] lines or fewer. *)
Theorem truncateLogs_nonpositive_bound (logs : string) (maxLines : Z) :
  maxLines <= 0 ->
  Haiku.truncateLogs logs maxLines
  = JSLib.join (String JSLib.newline "")
               (drop (Z.to_nat (- maxLines))
                     (JSLib.split_on JSLib.newline logs))
  /\ (maxLines = 0 -> Haiku.truncateLogs logs maxLines = logs)
  /\ (Z.of_nat (length (JSLib.split_on JSLib.newline logs)) <= - maxLines ->
      Haiku.truncateLogs logs maxLines = "").
Proof.
  intros Hn.
  assert (Haiku.truncateLogs logs maxLines
          = JSLib.join (String JSLib.newline "")
                       (drop (Z.to_nat (- maxLines))
                             (JSLib.split_on JSLib.newline logs))) as H.
  { unfold Haiku.truncateLogs.
    pose proof (length_split_on_pos JSLib.newline logs) as Hpos.
    destruct (Z.leb_spec
                (Z.of_nat (length (JSLib.split_on JSLib.newline logs)))
                maxLines); [lia|].
    rewrite slice_from_head by exact Hn. reflexivity. }
  split; [exact H|]. split.
  - intros ->. rewrite H. apply join_split_on.
  - intros Hall. rewrite H, drop_ge by lia. reflexivity.
Qed.

Lemma truncateLogs_nonpositive_bound_witness :
  Haiku.truncateLogs ("one" +:+ String JSLib.newline "two") 0
  = "one" +:+ String JSLib.newline "two".
Proof.
  exact (proj1 (proj2 (truncateLogs_nonpositive_bound
                         ("one" +:+ String JSLib.newline "two") 0
                         ltac:(lia))) eq_refl).
Defined.

(** X19. The bound that [diagnoseWithHaiku] passes on is never zero: it
    is the configured [max_log_lines] unless that is missing or zero, and
    200 then; with a positive bound the prompt holds at most that many
    lines of the log. *)
Theorem logLineBudget_bounds_prompt
    (config : ConfigTs.FullConfig) (logs : string) :
  Haiku.logLineBudget config <> 0
  /\ (forall n, ConfigTs.max_log_lines (ConfigTs.fallback config) = Some n ->
                n <> 0 -> Haiku.logLineBudget config = n)
  /\ (ConfigTs.max_log_lines (ConfigTs.fallback config) = None
      \/ ConfigTs.max_log_lines (ConfigTs.fallback config) = Some 0 ->
      Haiku.logLineBudget config = 200)
  /\ (0 < Haiku.logLineBudget config ->
      Z.of_nat (length (JSLib.split_on JSLib.newline
                          (Haiku.truncateLogs
                             logs (Haiku.logLineBudget config))))
      <= Haiku.logLineBudget config).
Proof.
  unfold Haiku.logLineBudget.
  destruct (ConfigTs.max_log_lines (ConfigTs.fallback config)) as [n|].
  - destruct (Z.eqb_spec n 0) as [->|Hn].
    + repeat split; try lia; try reflexivity.
      * intros n [= <-] H. contradiction.
      * intros H. apply truncateLogs_keeps_last_lines_len. lia.
    + repeat split; try assumption.
      * intros m [= <-] _. reflexivity.
      * intros [H|[= H]]; [discriminate|contradiction].
      * intros H. apply truncateLogs_keeps_last_lines_len. lia.
  - repeat split; try lia; try reflexivity.
    + intros n H. discriminate.
    + intros H. apply truncateLogs_keeps_last_lines_len. lia.
Qed.

Lemma logLineBudget_bounds_prompt_witness :
  Haiku.logLineBudget (ConfigTs.loadConfig [] [] ∅) = 200.
Proof.
  exact (proj1 (proj2 (proj2 (logLineBudget_bounds_prompt
                                (ConfigTs.loadConfig [] [] ∅) "")))
           (or_introl eq_refl)).
Defined.

End Logs.

(** ** Durations *)

Section Durations.










(** X22. A start or completion time that cannot be parsed is not
    reported as an error: the duration is printed as [NaNh NaNm]. *)
Theorem formatDuration_invalid_date
    (parse : string -> JS.number) (now : Z) (startedAt : string)
    (completedAt : option string) :
  parse startedAt = JS.NaN
  \/ (exists c rest, completedAt = Some (String c rest)
                     /\ parse (String c rest) = JS.NaN) ->
  Handlers.formatDuration parse now startedAt completedAt = "NaNh NaNm".
Proof.
  unfold Handlers.formatDuration.
  intros [H|(c & rest & -> & H)]; rewrite H.
  - destruct completedAt as [[|c rest]|]; try reflexivity.
    destruct (parse (String c rest)); reflexivity.
  - destruct (parse startedAt); reflexivity.
Qed.

Lemma formatDuration_invalid_date_witness :
  Handlers.formatDuration millis_parser 5000 "yesterday" None = "NaNh NaNm".
Proof.
  exact (formatDuration_invalid_date millis_parser 5000 "yesterday" None
           (or_introl eq_refl)).
Defined.

End Durations.

(** ** Loading the configuration *)

Section Loading.

Import ConfigTs.

Lemma readFileConfig_skip (pre : list candidate) (rest : list candidate) :
  Forall unparsed pre -> readFileConfig (pre ++ rest) = readFileConfig rest.
Proof.
  induction 1 as [|c pre Hc _ IH]; [reflexivity|].
  destruct c; [exact IH|exact IH|destruct Hc].
Qed.

Lemma readFileConfig_none (cs : list candidate) :
  Forall unparsed cs -> readFileConfig cs = emptyFileConfig.
Proof.
  intros H. rewrite <- (app_nil_r cs). rewrite (readFileConfig_skip _ _ H).
  reflexivity.
Qed.

Lemma bypass_flag_true (argv : list string) :
  "--bypass-permissions" ∈ argv ->
  bool_decide ("--bypass-permissions" ∈ argv) = true.
Proof. apply bool_decide_eq_true_2. Qed.

Lemma bypass_flag_false (argv : list string) :
  "--bypass-permissions" ∉ argv ->
  bool_decide ("--bypass-permissions" ∈ argv) = false.
Proof. apply bool_decide_eq_false_2. Qed.

(** X23. The flag [--bypass-permissions] on the command line wins over
    every configuration file: the loaded configuration allows every
    permission level and every repository, also when a file sets
    [bypass_permissions] to false or blacklists the repository. *)
Theorem command_line_bypass_wins
    (argv : list string) (candidates : list candidate)
    (env : gmap string string) (level : PermissionLevel.t) (repo : string) :
  "--bypass-permissions" ∈ argv ->
  full_bypass_permissions (loadConfig argv candidates env) = Some true
  /\ Perm.checkPermission (checks (loadConfig argv candidates env)) level
     = Return tt
  /\ Perm.checkRepoAccess (checks (loadConfig argv candidates env)) repo
     = Return tt.
Proof.
  intros Hin.
  assert (full_bypass_permissions (loadConfig argv candidates env)
          = Some true) as Hb
    by (unfold loadConfig; cbn [full_bypass_permissions];
        rewrite (bypass_flag_true _ Hin); reflexivity).
  split; [exact Hb|].
  unfold Perm.checkPermission, Perm.checkRepoAccess, checks.
  cbn [bypass_permissions]. rewrite Hb. split; reflexivity.
Qed.

Lemma command_line_bypass_wins_witness :
  Perm.checkPermission
    (checks (loadConfig ["node"; "index.js"; "--bypass-permissions"]
                        [Parsed whitelist_only_file] ∅))
    PermissionLevel.admin
  = Return tt.
Proof.
  refine (proj1 (proj2 (command_line_bypass_wins
                          ["node"; "index.js"; "--bypass-permissions"]
                          [Parsed whitelist_only_file] ∅
                          PermissionLevel.admin "acme/web" _))).
  do 2 apply list_elem_of_further. apply list_elem_of_here.
Defined.

(** X24. Without the flag and without a configuration file that parses,
    the loaded configuration is the safe default: no bypass, [read] on
    every repository and nothing else, the AI fallback off whatever the
    environment holds, and a log timeout of 60000 ms. *)
Theorem defaults_are_read_only
    (argv : list string) (candidates : list candidate)
    (env env' : gmap string string) :
  "--bypass-permissions" ∉ argv ->
  Forall unparsed candidates ->
  checks (loadConfig argv candidates env) = open_config
  /\ (forall repo,
        Index.handlerPrologue (checks (loadConfig argv candidates env))
                              PermissionLevel.read repo
        = Index.parseRepo repo)
  /\ (forall level repo,
        level <> PermissionLevel.read ->
        Index.handlerPrologue (checks (loadConfig argv candidates env))
                              level repo
        = Throw (Perm.permissionDenied level))
  /\ Haiku.isHaikuEnabled (loadConfig argv candidates env) env' = false
  /\ log_timeout (neverhang (loadConfig argv candidates env)) = 60000.
Proof.
  intros Hflag Hnone.
  assert (checks (loadConfig argv candidates env) = open_config) as Hc.
  { unfold checks, loadConfig.
    cbn [full_permissions full_bypass_permissions].
    rewrite (bypass_flag_false _ Hflag), (readFileConfig_none _ Hnone).
    reflexivity. }
  split; [exact Hc|]. split; [|split; [|split]].
  - intros repo. rewrite Hc. reflexivity.
  - intros level repo Hl. rewrite Hc.
    destruct level; [contradiction|reflexivity..].
  - unfold Haiku.isHaikuEnabled, loadConfig. cbn [fallback enabled].
    rewrite (readFileConfig_none _ Hnone). reflexivity.
  - unfold loadConfig. cbn [neverhang log_timeout].
    rewrite (readFileConfig_none _ Hnone). reflexivity.
Qed.

Lemma defaults_are_read_only_witness :
  Index.handlerPrologue
    (checks (loadConfig ["node"; "index.js"] [Missing; Unparsable] ∅))
    PermissionLevel.cancel "acme/web"
  = Throw (Perm.permissionDenied PermissionLevel.cancel).
Proof.
  refine (proj1 (proj2 (proj2 (defaults_are_read_only
                                 ["node"; "index.js"] [Missing; Unparsable]
                                 ∅ ∅ _ _)))
            PermissionLevel.cancel "acme/web" ltac:(discriminate)).
  - intros H. apply list_elem_of_In in H. simpl in H.
    destruct H as [H|[H|[]]]; discriminate H.
  - repeat constructor.
Defined.

(** X25. The loader takes the first configuration file that exists and
    parses: files that are missing or fail to parse before it are passed
    over, and whatever lies at the paths after it is ignored. *)
Theorem first_parsable_file_wins
    (argv : list string) (pre post : list candidate) (fc : FileConfig)
    (env : gmap string string) :
  Forall unparsed pre ->
  loadConfig argv (pre ++ Parsed fc :: post) env
  = loadConfig argv [Parsed fc] env.
Proof.
  intros Hpre. unfold loadConfig.
  rewrite (readFileConfig_skip _ _ Hpre). reflexivity.
Qed.

Lemma first_parsable_file_wins_witness :
  loadConfig [] [Unparsable; Parsed whitelist_only_file; Parsed emptyFileConfig]
             ∅
  = loadConfig [] [Parsed whitelist_only_file] ∅.
Proof.
  refine (first_parsable_file_wins
            [] [Unparsable] [Parsed emptyFileConfig] whitelist_only_file ∅ _).
  repeat constructor.
Defined.

Lemma flag_of_loaded (fc : FileConfig) (level : PermissionLevel.t) :
  Perm.flag (mergePermissions (f_permissions fc)) level
  = default (Perm.flag DEFAULT_PERMISSIONS level) (file_flag fc level).
Proof.
  unfold file_flag, mergePermissions, key, okey.
  destruct (f_permissions fc) as [fp|]; destruct level; reflexivity.
Qed.

(** X26. Without bypass, a level is granted by the loaded configuration
    exactly when the file that was read sets its flag to true, or says
    nothing about it and the level is [read]: a file that leaves
    [trigger], [cancel] or [admin] out does not grant them. *)
Theorem file_flags_decide_permissions
    (argv : list string) (fc : FileConfig) (env : gmap string string)
    (level : PermissionLevel.t) :
  "--bypass-permissions" ∉ argv ->
  f_bypass_permissions fc <> Some true ->
  (Perm.checkPermission (checks (loadConfig argv [Parsed fc] env)) level
   = Return tt
   <-> file_flag fc level = Some true
       \/ (file_flag fc level = None /\ level = PermissionLevel.read))
  /\ (Perm.checkPermission (checks (loadConfig argv [Parsed fc] env)) level
      <> Return tt ->
      Perm.checkPermission (checks (loadConfig argv [Parsed fc] env)) level
      = Throw (Perm.permissionDenied level)).
Proof.
  intros Hflag Hby.
  assert (Perm.checkPermission (checks (loadConfig argv [Parsed fc] env))
                               level
          = if negb (default (Perm.flag DEFAULT_PERMISSIONS level)
                             (file_flag fc level))
            then Throw (Perm.permissionDenied level) else Return tt) as ->.
  { unfold Perm.checkPermission, checks, loadConfig.
    cbn [bypass_permissions permissions full_permissions
         full_bypass_permissions readFileConfig].
    rewrite (bypass_flag_false _ Hflag), flag_of_loaded.
    destruct (f_bypass_permissions fc) as [[|]|];
      [contradiction|reflexivity|reflexivity]. }
  destruct (file_flag fc level) as [[|]|]; cbn [default negb].
  - split; [split; auto|intros H; contradiction].
  - split; [split; [discriminate|]|reflexivity].
    intros [H|[H _]]; discriminate H.
  - destruct level; cbn [Perm.flag DEFAULT_PERMISSIONS read trigger cancel
                         admin negb].
    + split; [split; auto|intros H; contradiction].
    + split; [split; [discriminate|]|reflexivity].
      intros [H|[_ H]]; discriminate H.
    + split; [split; [discriminate|]|reflexivity].
      intros [H|[_ H]]; discriminate H.
    + split; [split; [discriminate|]|reflexivity].
      intros [H|[_ H]]; discriminate H.
Qed.

Lemma file_flags_decide_permissions_witness :
  Perm.checkPermission
    (checks (loadConfig [] [Parsed whitelist_only_file] ∅))
    PermissionLevel.trigger
  = Throw (Perm.permissionDenied PermissionLevel.trigger).
Proof.
  refine (proj2 (file_flags_decide_permissions
                   [] whitelist_only_file ∅ PermissionLevel.trigger _ _) _).
  - intros H. inversion H.
  - discriminate.
  - discriminate.
Defined.

(** X27. The variable [GHA_MCP_TIMEOUT], when set and not empty, replaces
    the API timeout of file and defaults, whatever the files hold, by
    what [parseInt] reads from it: the number for a decimal number up to
    2^53 in magnitude, and in general, for an ASCII value whose number
    JavaScript holds without rounding, the result of [parseInt], which is
    [NaN] for a text without leading number. When the variable is missing
    or empty the timeout is the one of the file, 30000 ms by default. The
    log timeout never depends on the environment. *)
Theorem timeout_from_environment
    (argv : list string) (candidates : list candidate)
    (env : gmap string string) :
  (forall z, env !! "GHA_MCP_TIMEOUT" = Some (pretty z) ->
             Z.abs z <= 9007199254740992 ->
             api_timeout (neverhang (loadConfig argv candidates env))
             = JS.Num z)
  /\ (forall v, env !! "GHA_MCP_TIMEOUT" = Some v -> v <> "" ->
                within_parseInt_model v ->
                api_timeout (neverhang (loadConfig argv candidates env))
                = JS.parseInt v)
  /\ (forall v argv' candidates',
        env !! "GHA_MCP_TIMEOUT" = Some v -> v <> "" ->
        api_timeout (neverhang (loadConfig argv candidates env))
        = api_timeout (neverhang (loadConfig argv' candidates' env)))
  /\ (absent_or_empty (env !! "GHA_MCP_TIMEOUT") ->
      api_timeout (neverhang (loadConfig argv candidates env))
      = JS.Num (key (f_neverhang (readFileConfig candidates))
                    f_api_timeout 30000))
  /\ log_timeout (neverhang (loadConfig argv candidates env))
     = log_timeout (neverhang (loadConfig argv candidates ∅)).
Proof.
  unfold loadConfig. cbn [neverhang api_timeout log_timeout].
  assert (forall cs v, env !! "GHA_MCP_TIMEOUT" = Some v -> v <> "" ->
            match env !! "GHA_MCP_TIMEOUT" with
            | Some (String c rest) => JS.parseInt (String c rest)
            | _ => JS.Num (key (f_neverhang (readFileConfig cs))
                               f_api_timeout 30000)
            end = JS.parseInt v) as Hset.
  { intros cs v -> Hv. destruct v; [contradiction|reflexivity]. }
  split; [|split; [|split; [|split; [|reflexivity]]]].
  - intros z Hz _. rewrite (Hset _ _ Hz (pretty_Z_nonempty z)).
    apply parseInt_pretty.
  - intros v Hv Hne _. exact (Hset _ _ Hv Hne).
  - intros v argv' candidates' Hv Hne.
    rewrite (Hset candidates _ Hv Hne), (Hset candidates' _ Hv Hne).
    reflexivity.
  - intros [-> | ->]; reflexivity.
Qed.

Lemma timeout_from_environment_witness :
  within_parseInt_model "fast"
  /\ api_timeout
       (neverhang (loadConfig [] [] (<["GHA_MCP_TIMEOUT" := "fast"]> ∅)))
     = JS.NaN.
Proof.
  assert (within_parseInt_model "fast") as Hm
    by (split; [repeat split; apply Nat.ltb_lt; vm_compute; reflexivity
               |exact I]).
  split; [exact Hm|].
  refine (proj1 (proj2 (timeout_from_environment
                          [] [] (<["GHA_MCP_TIMEOUT" := "fast"]> ∅)))
            "fast" _ _ Hm).
  - vm_compute. reflexivity.
  - discriminate.
Defined.

(** X28. The AI fallback looks for its key under the variable named by
    [api_key_env] when that name is set and not empty, and under
    [ANTHROPIC_API_KEY] otherwise. A configured name hides
    [ANTHROPIC_API_KEY]: when the configured variable is missing or
    empty, the fallback is off even if [ANTHROPIC_API_KEY] is set. *)
Theorem haiku_key_lookup
    (config : FullConfig) (env : gmap string string) :
  (Haiku.isHaikuEnabled config env = true -> enabled (fallback config) = true)
  /\ (forall name, api_key_env (fallback config) = Some name -> name <> "" ->
        Haiku.isHaikuEnabled config env
        = enabled (fallback config) && JS.truthy_string (env !! name))
  /\ (absent_or_empty (api_key_env (fallback config)) ->
      Haiku.isHaikuEnabled config env
      = enabled (fallback config)
        && JS.truthy_string (env !! "ANTHROPIC_API_KEY"))
  /\ (forall name, api_key_env (fallback config) = Some name -> name <> "" ->
        absent_or_empty (env !! name) ->
        Haiku.isHaikuEnabled config env = false).
Proof.
  unfold Haiku.isHaikuEnabled.
  destruct (enabled (fallback config)); simpl.
  - split; [reflexivity|]. split; [|split].
    + intros name -> Hn. destruct name; [contradiction|reflexivity].
    + intros [-> | ->]; reflexivity.
    + intros name -> Hn Ha. destruct name; [contradiction|].
      apply truthy_string_false, Ha.
  - split; [discriminate|]. repeat split; reflexivity.
Qed.

Lemma haiku_key_lookup_witness :
  Haiku.isHaikuEnabled keyed_fallback_config
                       (<["ANTHROPIC_API_KEY" := "sk-test"]> ∅)
  = false.
Proof.
  refine (proj2 (proj2 (proj2 (haiku_key_lookup
                                 keyed_fallback_config
                                 (<["ANTHROPIC_API_KEY" := "sk-test"]> ∅))))
            "MY_KEY" eq_refl ltac:(discriminate) _).
  left. vm_compute. reflexivity.
Defined.

End Loading.

(** ** The handlers for failures and logs *)

Section Diagnosis.

Import Handlers.

Lemma is_failure_true (c : option string) :
  is_failure c = true <-> c = Some "failure".
Proof. unfold is_failure. apply strict_eq_true. Qed.

(** X29. [gha_diagnose_failure] reports a step exactly when the step
    failed inside a job that failed: every entry of [failed_steps] has
    the conclusion [failure] and names a job of the run whose conclusion
    is [failure]; a failed step of a job that did not fail, and the steps
    of a job without step list, are never reported. *)
Theorem failedSteps_reports (jobs : list Job) (fs : FailedStep) :
  fs ∈ failedSteps jobs
  <-> exists j steps s,
        j ∈ jobs /\ job_conclusion j = Some "failure"
        /\ job_steps j = Some steps
        /\ s ∈ steps /\ step_conclusion s = Some "failure"
        /\ fs = {| job := job_name j; step := step_name s;
                   conclusion := "failure" |}.
Proof.
  unfold failedSteps, failedJobs, failedStepsOf.
  rewrite list_elem_of_In, in_flat_map. split.
  - intros (j & Hj & Hfs). apply filter_In in Hj as [Hj Hjc].
    apply is_failure_true in Hjc.
    apply in_map_iff in Hfs as (s & <- & Hs).
    destruct (job_steps j) as [steps|] eqn:Hsteps; [|destruct Hs].
    apply filter_In in Hs as [Hs Hsc]. apply is_failure_true in Hsc.
    exists j, steps, s. rewrite !list_elem_of_In, Hsc.
    repeat split; assumption.
  - intros (j & steps & s & Hj & Hjc & Hsteps & Hs & Hsc & ->).
    exists j. split.
    + apply filter_In. split; [apply list_elem_of_In, Hj|].
      apply is_failure_true, Hjc.
    + apply in_map_iff. exists s. rewrite Hsc. split; [reflexivity|].
      rewrite Hsteps. apply filter_In.
      split; [apply list_elem_of_In, Hs|apply is_failure_true, Hsc].
Qed.

Lemma failedSteps_reports_witness :
  {| job := "build"; step := "compile"; conclusion := "failure" |}
  ∈ failedSteps sample_jobs
  /\ failedSteps sample_jobs
     = [ {| job := "build"; step := "compile"; conclusion := "failure" |} ].
Proof.
  split; [|reflexivity].
  apply (proj2 (failedSteps_reports sample_jobs _)).
  exists {| job_name := "build"; job_conclusion := Some "failure";
            job_steps :=
              Some [ {| step_name := "checkout";
                        step_conclusion := Some "success" |};
                     {| step_name := "compile";
                        step_conclusion := Some "failure" |} ] |},
    [ {| step_name := "checkout"; step_conclusion := Some "success" |};
      {| step_name := "compile"; step_conclusion := Some "failure" |} ],
    {| step_name := "compile"; step_conclusion := Some "failure" |}.
  split; [apply list_elem_of_here|].
  split; [reflexivity|]. split; [reflexivity|].
  split; [apply list_elem_of_further, list_elem_of_here|].
  split; reflexivity.
Defined.

Lemma starts_with_410_suffix (m : string) :
  JSLib.starts_with "410" (m +:+ "ms") = JSLib.starts_with "410" m.
Proof.
  destruct m as [|c1 [|c2 [|c3 m3]]];
    rewrite ?string_app_cons; cbn [JSLib.starts_with].
  - reflexivity.
  - destruct (Ascii.eqb "4"%char c1); reflexivity.
  - destruct (Ascii.eqb "4"%char c1); [|reflexivity].
    destruct (Ascii.eqb "1"%char c2); reflexivity.
  - reflexivity.
Qed.

Lemma includes_410_suffix (m : string) :
  JSLib.includes "410" (m +:+ "ms") = JSLib.includes "410" m.
Proof.
  induction m as [|c m IH]; [reflexivity|].
  rewrite string_app_cons.
  change (JSLib.includes "410" (String c (m +:+ "ms")))
    with (JSLib.starts_with "410" (String c m +:+ "ms")
          || JSLib.includes "410" (m +:+ "ms")).
  rewrite starts_with_410_suffix, IH. reflexivity.
Qed.

(** The default message of a timeout holds [410] exactly when the bound
    does. *)
Lemma includes_410_timeoutMessage (ms : Z) :
  JSLib.includes "410" (Utils.timeoutMessage (JS.Num ms) None)
  = JSLib.includes "410" (pretty ms).
Proof.
  unfold Utils.timeoutMessage, JSLib.to_string.
  change (JSLib.includes "410"
            ("Operation timed out after " +:+ pretty ms +:+ "ms"))
    with (JSLib.includes "410" (pretty ms +:+ "ms")).
  apply includes_410_suffix.
Qed.

(** X30. In [gha_get_run_logs], an error is turned into the answer for
    expired logs exactly when its message holds [410], whatever raised
    it. For a timeout of the download this depends on the bound alone:
    for a [log_timeout] that JavaScript prints without rounding (up to
    2^53 in magnitude), the timeout is answered as expired logs when the
    decimal digits of [log_timeout] hold [410], as in 41000; otherwise,
    as for the default of 60000, the timeout error is passed on. *)
Theorem timeout_can_read_as_expired
    (R : Type) (config : ConfigTs.FullConfig) (repo : string)
    (race : string * string -> Utils.first_settled R)
    (target : string * string) :
  Index.handlerPrologue (ConfigTs.checks config) PermissionLevel.read repo
  = Return target ->
  (forall e, race target = Utils.PromiseFirst (Utils.Rejected e) ->
     gha_get_run_logs config repo race
     = if JSLib.includes "410" (message e)
       then Utils.Fulfilled LogsExpired else Utils.Rejected e)
  /\ (race target = Utils.TimerFirst ->
      Z.abs (ConfigTs.log_timeout (ConfigTs.neverhang config))
      <= 9007199254740992 ->
      gha_get_run_logs config repo race
      = if JSLib.includes "410"
             (pretty (ConfigTs.log_timeout (ConfigTs.neverhang config)))
        then Utils.Fulfilled LogsExpired
        else Utils.Rejected
               (mkError
                  ("Operation timed out after "
                   +:+ pretty (ConfigTs.log_timeout
                                 (ConfigTs.neverhang config))
                   +:+ "ms")))
  /\ (forall r, race target = Utils.PromiseFirst (Utils.Fulfilled r) ->
      gha_get_run_logs config repo race = Utils.Fulfilled (LogsLink r)).
Proof.
  intros Hp. unfold gha_get_run_logs. rewrite Hp. split; [|split].
  - intros e ->. reflexivity.
  - intros -> _. cbn [Utils.withTimeout catchExpired message].
    rewrite includes_410_timeoutMessage. reflexivity.
  - intros r ->. reflexivity.
Qed.

Lemma timeout_can_read_as_expired_witness :
  gha_get_run_logs (R := string) slow_logs_config "acme/web"
                   (fun _ => Utils.TimerFirst)
  = Utils.Fulfilled LogsExpired.
Proof.
  refine (proj1 (proj2 (timeout_can_read_as_expired
                          string slow_logs_config "acme/web"
                          (fun _ => Utils.TimerFirst) ("acme", "web")
                          eq_refl))
            eq_refl _).
  vm_compute. discriminate.
Defined.

End Diagnosis.
